(** * naev font.c: text layout and rendering, embedded in Rocq

    A shallow embedding of the layout routines (font_limitSize,
    gl_printWidthForText, gl_printWidthRaw, gl_printHeightRaw), of the
    renderer step (gl_fontRenderCharacter) with its drivers
    (gl_printMaxRaw, gl_printMidRaw) and of the sizing part of the atlas
    packer (font_genTextureAtlas).

    Conventions.
    - A C [int] is a [Z].  Signed overflow is undefined in C, so the
      embedding agrees with the program on every run that has a defined
      meaning.
    - A C string is a [list Z]: the values [(int)text[i]] in order.  The
      string ends at the first [0] or at the end of the list, whichever
      comes first (the end of the list is where the terminator sits).  A
      pointer [&text[i]] into a string is the suffix starting at [i].
    - A pointer that may be NULL is an [option].
    - A [double] holding sums and halves of ints is a [Q]; those values
      are exact in binary64 for 32-bit operands.
    - A [double] that comes from a caller (a position) is the rational
      number it denotes, and every sum or difference that involves it is
      rounded as binary64 rounds it ([binary64], [dadd], [dsub]).
      Infinities and NaN are not represented. *)

From Stdlib Require Import String Ascii.
From Stdlib Require Import ZArith List Bool Lia QArith Qround.
Import ListNotations.
Open Scope Z_scope.

(** ** Data model *)

(** font.h, glFontChar: the per-glyph data kept after the atlas is built. *)
Record glFontChar := mkFontChar {
  adv_x : Z;
  adv_y : Z
}.

(** font.h, glFont.  [chars] is a pointer in C: it is read at whatever index
    the caller computes, with no bound check.  Indices 0..127 are the table
    allocated by gl_fontInit; the function gives the memory content seen
    through the pointer at any other index too. *)
Record glFont := mkFont {
  h : Z;
  chars : Z -> glFontChar;
  texture : Z;
  vbo : Z
}.

Definition cstring := list Z.

(** Character constants of the source. *)
Definition NUL : Z := 0.
Definition TAB : Z := 9.     (* '\t' *)
Definition NEWLINE : Z := 10. (* '\n' *)
Definition ESC : Z := 27.    (* '\e' *)
Definition SPACE : Z := 32.  (* ' ' *)

(** An ASCII literal as a C string. *)
Definition c_str (s : string) : cstring :=
  map (fun a => Z.of_nat (nat_of_ascii a)) (list_ascii_of_string s).

(** The characters before the terminator, and strlen. *)
Fixpoint str_chars (text : cstring) : list Z :=
  match text with
  | [] => []
  | ch :: rest => if ch =? NUL then [] else ch :: str_chars rest
  end.

Definition strlen (text : cstring) : Z := Z.of_nat (length (str_chars text)).

(** [text[i]]; the terminator is read at and past the end of the list. *)
Definition text_at (text : cstring) (i : Z) : Z :=
  if i <? 0 then NUL else nth (Z.to_nat i) text NUL.

(** [ft_font->chars[ (int)ch ].adv_x] *)
Definition char_adv (ft : glFont) (ch : Z) : Z := adv_x (chars ft ch).

(** Sum of the advances of a run of characters. *)
Fixpoint adv_sum (ft : glFont) (l : list Z) : Z :=
  match l with
  | [] => 0
  | ch :: rest => char_adv ft ch + adv_sum ft rest
  end.

(** ** font_limitSize *)

(** The for loop of font_limitSize: [text] is [&text[i]], [n] the width so
    far, [i] the loop index.  Returns the final [(n, i)]. *)
Fixpoint limit_loop (ft : glFont) (text : cstring) (max n i : Z) : Z * Z :=
  match text with
  | [] => (n, i)
  | ch :: rest =>
      if ch =? NUL then (n, i)
      else
        let n1 := n + char_adv ft ch in
        if n1 >? max then (n1 - char_adv ft ch, i)
        else limit_loop ft rest max n1 (i + 1)
  end.

(** font_limitSize.  [width] is the out-parameter: [None] is a NULL
    pointer, [Some v] a pointer to an int that holds [v].  The result is
    the returned count and the content of the out-parameter afterwards. *)
Definition font_limitSize (ft : glFont) (width : option Z)
    (text : option cstring) (max : Z) : Z * option Z :=
  match text with
  | None => (0, width)
  | Some t =>
      let '(n, i) := limit_loop ft t max 0 0 in
      (i, match width with
          | None => None
          | Some _ => Some n
          end)
  end.

(** ** Globals read by the routines *)

(** colour.h, glColour. *)
Record glColour := mkColour {
  r : Q;
  g : Q;
  b : Q;
  a : Q
}.

(** The globals of other translation units that font.c reads: the default
    font, the three named colours of colour.c, the screen size behind
    SCREEN_W and SCREEN_H, and the two texture-size helpers of opengl.c. *)
Record Globals := mkGlobals {
  gl_defFont : glFont;
  cRed : glColour;
  cGreen : glColour;
  cBlue : glColour;
  SCREEN_W : Z;
  SCREEN_H : Z;
  gl_needPOT : bool;
  gl_pot : Z -> Z
}.

(** [if (ft_font == NULL) ft_font = &gl_defFont;] *)
Definition font_or_default (G : Globals) (ft_font : option glFont) : glFont :=
  match ft_font with
  | None => gl_defFont G
  | Some ft => ft
  end.

(** ** gl_printWidthForText *)

(** The while loop of gl_printWidthForText: [text] is [&text[i]], and
    [i], [n], [lastspace] are the three locals. *)
Fixpoint wft_loop (ft : glFont) (text : cstring) (width i n lastspace : Z) : Z :=
  match text with
  | [] => i
  | ch :: rest =>
      if (ch =? NEWLINE) || (ch =? NUL) then i
      else if ch =? TAB then wft_loop ft rest width (i + 1) n lastspace
      else if ch =? ESC then
        match rest with
        | [] => wft_loop ft rest width (i + 1) n lastspace
        | d :: rest' =>
            if d =? NUL then wft_loop ft rest width (i + 1) n lastspace
            else wft_loop ft rest' width (i + 2) n lastspace
        end
      else
        let n1 := n + char_adv ft ch in
        let lastspace1 := if ch =? SPACE then i else lastspace in
        if n1 >? width then lastspace1
        else wft_loop ft rest width (i + 1) n1 lastspace1
  end.

Definition gl_printWidthForText (G : Globals) (ft_font : option glFont)
    (text : cstring) (width : Z) : Z :=
  wft_loop (font_or_default G ft_font) text width 0 0 0.

(** ** gl_printWidthRaw *)

(** The for loop of gl_printWidthRaw: [text] is [&text[i]] with
    [i < strlen(text)] still to be tested.  In the escape branch the loop
    index is moved by 2 (or by 1 before the terminator) and [continue]
    then runs the [i++] of the for statement as well. *)
Fixpoint width_loop (ft : glFont) (text : cstring) (n : Z) : Z :=
  match text with
  | [] => n
  | ch :: rest =>
      if ch =? NUL then n
      else if ch =? ESC then
        match rest with
        | [] => n                      (* i += 1; i++ : past the end *)
        | d :: rest' =>
            if d =? NUL then n         (* i += 1; i++ : past the end *)
            else                       (* i += 2; i++ *)
              match rest' with
              | [] => n
              | skipped :: rest'' =>
                  if skipped =? NUL then n
                  else width_loop ft rest'' n
              end
        end
      else width_loop ft rest (n + char_adv ft ch)
  end.

Definition gl_printWidthRaw (G : Globals) (ft_font : option glFont)
    (text : cstring) : Z :=
  width_loop (font_or_default G ft_font) text 0.

(** ** gl_printHeightRaw *)

(** [(int)d] for a double: truncation toward zero. *)
Definition int_of_double (d : Q) : Z :=
  if Qle_bool 0 d then Qfloor d else Qceiling d.

(** The do-while loop of gl_printHeightRaw: [text_p] is [&text[p]] and [y]
    the height so far.  Every turn consumes at least one character, so the
    loop is run on a fuel that the length of the text bounds. *)
Fixpoint height_loop (G : Globals) (ft : glFont) (width : Z) (fuel : nat)
    (text_p : cstring) (y : Q) : option Q :=
  match fuel with
  | O => None
  | S fuel' =>
      let i := gl_printWidthForText G (Some ft) text_p width in
      let y1 := (y + (3 # 2) * inject_Z (h ft))%Q in
      (* p += i + 1, and text[p-1] is the character the line stopped at *)
      if text_at text_p i =? NUL then Some y1
      else height_loop G ft width fuel' (skipn (Z.to_nat (i + 1)) text_p) y1
  end.

Definition gl_printHeightRaw (G : Globals) (ft_font : option glFont)
    (width : Z) (text : cstring) : option Z :=
  let ft := font_or_default G ft_font in
  if text_at text 0 =? NUL then Some 0
  else
    match height_loop G ft width (S (length text)) text 0%Q with
    | None => None
    | Some y => Some (int_of_double (y - (1 # 2) * inject_Z (h ft))%Q)
    end.

(** ** The renderer *)

(** The OpenGL calls font.c issues, recorded in program order. *)
Inductive gl_call :=
| glEnable_TEXTURE_2D
| glDisable_TEXTURE_2D
| glBindTexture (tex : Z)
| gl_matrixMode_MODELVIEW
| gl_matrixPush
| gl_matrixPop
| gl_matrixTranslate (x y : Q)
| glColor4d (red green blue alpha : Q)
| gl_vboActivateOffset_TEXTURE_COORD (buf offset : Z)
| gl_vboActivateOffset_VERTEX (buf offset : Z)
| gl_vboDeactivate
| glDrawElements_TRIANGLES (ind : list Z)
| gl_checkErr.

(** Code that issues GL calls: a state monad over the trace of calls. *)
Definition GL (A : Type) : Type := list gl_call -> A * list gl_call.

Definition gl_ret {A : Type} (x : A) : GL A := fun tr => (x, tr).

Definition gl_bind {A B : Type} (m : GL A) (k : A -> GL B) : GL B :=
  fun tr => let '(x, tr1) := m tr in k x tr1.

Definition call (c : gl_call) : GL unit := fun tr => (tt, tr ++ [c]).

Declare Scope gl_scope.
Delimit Scope gl_scope with gl.
Notation "x <- m ;; k" := (gl_bind m (fun x => k))
  (at level 61, m at next level, right associativity) : gl_scope.
Notation "m ;;; k" := (gl_bind m (fun _ => k))
  (at level 61, right associativity) : gl_scope.

(** Modelled from the spec: the macros COLOUR and ACOLOUR of colour.h, which
    is not part of this slice.  A directive selects a named colour with the
    caller's alpha, or resets to the caller-supplied colour. *)
Definition COLOUR (c : glColour) : GL unit :=
  call (glColor4d (r c) (g c) (b c) (a c)).

Definition ACOLOUR (c : glColour) (alpha : Q) : GL unit :=
  call (glColor4d (r c) (g c) (b c) alpha).

(** [round] of math.h: to the nearest integer, halves away from zero. *)
Definition c_round (d : Q) : Z :=
  if Qle_bool 0 d then Qfloor (d + (1 # 2)) else Qceiling (d - (1 # 2)).

(** *** binary64 arithmetic *)

(** The exponent of the leading bit of [n / d], for [0 < n] and [0 < d]:
    the [e] with [2^e <= n / d < 2^(e+1)]. *)
Definition floor_log2_ratio (n d : Z) : Z :=
  let e0 := Z.log2 n - Z.log2 d in
  if d * 2 ^ (Z.max 0 e0) <=? n * 2 ^ (Z.max 0 (- e0)) then e0 else e0 - 1.

(** [num / den] rounded to the nearest integer, ties to the even one, for
    [0 <= num] and [0 < den]. *)
Definition round_half_even (num den : Z) : Z :=
  let fl := num / den in
  match 2 * (num mod den) ?= den with
  | Lt => fl
  | Gt => fl + 1
  | Eq => if Z.even fl then fl else fl + 1
  end.

(** The binary64 number nearest to a rational, ties to even: 53
    significant bits, and no bit below [2^-1074].  Results beyond the
    largest finite double are not turned into infinities; the sums and
    differences of a finite double and an int never get there. *)
Definition binary64 (q : Q) : Q :=
  let a := Qnum q in
  let d := Z.pos (Qden q) in
  if a =? 0 then 0%Q
  else
    let n := Z.abs a in
    let e := floor_log2_ratio n d in
    let qe := Z.max (e - 52) (- 1074) in
    let m := round_half_even (n * 2 ^ (Z.max 0 (- qe)))
                             (d * 2 ^ (Z.max 0 qe)) in
    let v := Z.sgn a * m in
    if 0 <=? qe then inject_Z (v * 2 ^ qe)
    else Qmake v (Z.to_pos (2 ^ (- qe))).

(** [x + y] and [x - y] on doubles. *)
Definition dadd (x y : Q) : Q := binary64 (x + y).
Definition dsub (x y : Q) : Q := binary64 (x - y).

(** A value stored in a GLushort. *)
Definition GLushort (v : Z) : Z := v mod 65536.

(** gl_fontRenderStart *)
Definition gl_fontRenderStart (G : Globals) (font : glFont) (x y : Q)
    (c : option glColour) : GL unit :=
  (call glEnable_TEXTURE_2D ;;;
   call (glBindTexture (texture font)) ;;;
   call gl_matrixMode_MODELVIEW ;;;
   call gl_matrixPush ;;;
   call (gl_matrixTranslate
           (inject_Z (c_round (dsub x (inject_Z (SCREEN_W G) / 2))))
           (inject_Z (c_round (dsub y (inject_Z (SCREEN_H G) / 2))))) ;;;
   match c with
   | None => call (glColor4d 1 1 1 1)
   | Some col => COLOUR col
   end ;;;
   call (gl_vboActivateOffset_TEXTURE_COORD (vbo font) 0) ;;;
   call (gl_vboActivateOffset_VERTEX (vbo font) (128 * 8 * 4)))%gl.

(** The characters the directive switch names. *)
Definition CH_r : Z := 114.
Definition CH_g : Z := 103.
Definition CH_b : Z := 98.
Definition CH_0 : Z := 48.

(** gl_fontRenderCharacter: returns the new escape state. *)
Definition gl_fontRenderCharacter (G : Globals) (font : glFont) (ch : Z)
    (c : option glColour) (state : Z) : GL Z :=
  if ch =? ESC then gl_ret 1
  else if state =? 1 then
    let alpha := match c with None => 1%Q | Some col => a col end in
    ((if ch =? CH_r then ACOLOUR (cRed G) alpha
      else if ch =? CH_g then ACOLOUR (cGreen G) alpha
      else if ch =? CH_b then ACOLOUR (cBlue G) alpha
      else if ch =? CH_0 then
        match c with
        | None => call (glColor4d 1 1 1 1)
        | Some col => COLOUR col
        end
      else gl_ret tt) ;;;
     gl_ret 0)%gl
  else
    let ind := [ GLushort (4 * ch + 0); GLushort (4 * ch + 1);
                 GLushort (4 * ch + 3); GLushort (4 * ch + 1);
                 GLushort (4 * ch + 3); GLushort (4 * ch + 2) ] in
    (call (glDrawElements_TRIANGLES ind) ;;;
     call (gl_matrixTranslate (inject_Z (adv_x (chars font ch)))
                              (inject_Z (adv_y (chars font ch)))) ;;;
     gl_ret 0)%gl.

(** gl_fontRenderEnd *)
Definition gl_fontRenderEnd : GL unit :=
  (call gl_vboDeactivate ;;;
   call gl_matrixPop ;;;
   call glDisable_TEXTURE_2D ;;;
   call gl_checkErr)%gl.

(** [for (i=0; i < ret; i++) s = gl_fontRenderCharacter(ft, text[i], c, s);]
    with [text] standing for [&text[i]].  [ret] never exceeds the length of
    the string, so the list does not run out before [i] reaches [ret]. *)
Fixpoint render_loop (G : Globals) (ft : glFont) (c : option glColour)
    (text : cstring) (i ret s : Z) : GL Z :=
  match text with
  | [] => gl_ret s
  | ch :: rest =>
      if i <? ret then
        (s1 <- gl_fontRenderCharacter G ft ch c s ;;
         render_loop G ft c rest (i + 1) ret s1)%gl
      else gl_ret s
  end.

Definition text_or_nil (text : option cstring) : cstring :=
  match text with
  | None => []
  | Some t => t
  end.

(** gl_printMaxRaw.  The local [s] is read before it is written: [s0] is the
    indeterminate value it starts with. *)
Definition gl_printMaxRaw (G : Globals) (ft_font : option glFont) (max : Z)
    (x y : Q) (c : option glColour) (text : option cstring) (s0 : Z) : GL Z :=
  let ft := font_or_default G ft_font in
  let ret := fst (font_limitSize ft None text max) in
  (gl_fontRenderStart G ft x y c ;;;
   _ <- render_loop G ft c (text_or_nil text) 0 ret s0 ;;
   gl_fontRenderEnd ;;;
   gl_ret 0)%gl.

(** gl_printMidRaw.  [n0] is the indeterminate initial value of the local
    [n], which font_limitSize overwrites unless [text] is NULL. *)
Definition gl_printMidRaw (G : Globals) (ft_font : option glFont) (width : Z)
    (x y : Q) (c : option glColour) (text : option cstring) (s0 n0 : Z)
    : GL Z :=
  let ft := font_or_default G ft_font in
  let '(ret, wr) := font_limitSize ft (Some n0) text width in
  let n := match wr with Some v => v | None => n0 end in
  let x1 := dadd x (inject_Z (width - n) / 2) in
  (gl_fontRenderStart G ft x1 y c ;;;
   _ <- render_loop G ft c (text_or_nil text) 0 ret s0 ;;
   gl_fontRenderEnd ;;;
   gl_ret 0)%gl.

(** ** font_genTextureAtlas: how the atlas is sized *)

Module Atlas.

(** font_char_t, without the bitmap and the texture coordinates. *)
Record font_char_t := mk_char {
  w : Z;
  h : Z;
  off_x : Z;
  off_y : Z;
  adv_x : Z;
  adv_y : Z
}.

(** The locals the first loop accumulates. *)
Record totals := mk_totals {
  total_w : Z;
  total_h : Z;
  total_A : Z;
  max_h : Z
}.

Definition measure_step (t : totals) (c : font_char_t) : totals :=
  mk_totals (total_w t + w c)
            (total_h t + (off_y c + h c))
            (total_A t + w c * h c)
            (if h c >? max_h t then h c else max_h t).

(** The loop over the 128 rasterized characters. *)
Definition measure (chars : list font_char_t) : totals :=
  fold_left measure_step chars (mk_totals 0 0 0 0).

(** Rounding up of a quotient of integers, [0 < d]. *)
Definition ceil_div (n d : Z) : Z := (n + d - 1) / d.

(** [ceil( sqrt( (double)total_w / (double)max_h ) )] for [0 <= total_w] and
    [0 < max_h]: the least [n] with [total_w <= n * n * max_h].  For 32-bit
    operands the binary64 quotient and root are too accurate to move the
    result across an integer. *)
Definition rows_estimate (total_w max_h : Z) : Z :=
  Z.sqrt_up (ceil_div total_w max_h).

(** The three assignments after the comment "Calculate how to fit them".
    [total_w / n] divides two ints, so [ceil] receives an integer. *)
Definition estimate (t : totals) : Z * Z * Z :=
  let n := rows_estimate (total_w t) (max_h t) in
  let w0 := Z.quot (total_w t) n + 1 in
  let h0 := max_h t * n + 1 in
  (n, w0, h0).

Definition pot (G : Globals) (v : Z) : Z :=
  if gl_needPOT G then gl_pot G v else v.

(** The loop under "Test fit - formula isn't perfect": returns the final
    [(x_off, y_off, h)]. *)
Fixpoint fit_loop (G : Globals) (chars : list font_char_t)
    (maxh wt x_off y_off ht : Z) : Z * Z * Z :=
  match chars with
  | [] => (x_off, y_off, ht)
  | c :: rest =>
      if x_off + w c >=? wt then
        let y_off1 := y_off + maxh in
        let ht1 := if y_off1 + maxh >=? ht then pot G (ht + maxh) else ht in
        fit_loop G rest maxh wt (0 + w c) y_off1 ht1
      else fit_loop G rest maxh wt (x_off + w c) y_off ht
  end.

(** The texture size [(w, h)] font_genTextureAtlas allocates. *)
Definition atlas_size (G : Globals) (chars : list font_char_t) : Z * Z :=
  let t := measure chars in
  let '(n, w0, h0) := estimate t in
  let w1 := pot G w0 in
  let h1 := pot G h0 in
  let '(_, _, h2) := fit_loop G chars (max_h t) w1 0 0 h1 in
  (w1, h2).

(** The width the packing comment asks for: the total width shared out
    over [n] rows, rounded up, plus one. *)
Definition spec_width (total_w n : Z) : Z := ceil_div total_w n + 1.

End Atlas.

(** ** Specification-level notions *)

(** What gl_printWidthForText looks at, said without the loop.  [scan text i]
    lists the characters of the first line that count for the width, each
    with its index, [text] being [&text[i]]: tabs and escape sequences are
    left out. *)
Fixpoint scan (text : cstring) (i : Z) : list (Z * Z) :=
  match text with
  | [] => []
  | ch :: rest =>
      if (ch =? NEWLINE) || (ch =? NUL) then []
      else if ch =? TAB then scan rest (i + 1)
      else if ch =? ESC then
        match rest with
        | [] => []
        | d :: rest' => if d =? NUL then [] else scan rest' (i + 2)
        end
      else (i, ch) :: scan rest (i + 1)
  end.

(** The index at which the scan of the first line ends. *)
Fixpoint scan_end (text : cstring) (i : Z) : Z :=
  match text with
  | [] => i
  | ch :: rest =>
      if (ch =? NEWLINE) || (ch =? NUL) then i
      else if ch =? ESC then
        match rest with
        | [] => i + 1
        | d :: rest' => if d =? NUL then i + 1 else scan_end rest' (i + 2)
        end
      else scan_end rest (i + 1)
  end.

(** The counted characters up to and including the first one that takes
    the width [n] so far beyond [width]; [None] when none does. *)
Fixpoint overflow_prefix (ft : glFont) (width n : Z) (l : list (Z * Z))
    : option (list (Z * Z)) :=
  match l with
  | [] => None
  | (i, ch) :: rest =>
      if n + char_adv ft ch >? width then Some [(i, ch)]
      else option_map (cons (i, ch))
             (overflow_prefix ft width (n + char_adv ft ch) rest)
  end.

(** The index of the last space of a run, [dflt] when it has none. *)
Definition last_space (dflt : Z) (l : list (Z * Z)) : Z :=
  fold_left (fun acc p => if snd p =? SPACE then fst p else acc) l dflt.

(** wrapWidth in the words of the specification. *)
Definition wrap_spec (ft : glFont) (text : cstring) (width : Z) : Z :=
  match overflow_prefix ft width 0 (scan text 0) with
  | Some seen => last_space 0 seen
  | None => scan_end text 0
  end.

(** [wrapped_lines G ft width text k]: applying wrapWidth again and again,
    each time past the character the line stopped at, consumes [text] in
    [k] lines, the last of which stops at the terminator. *)
Inductive wrapped_lines (G : Globals) (ft : glFont) (width : Z)
    : cstring -> Z -> Prop :=
| lines_last : forall text,
    text_at text (gl_printWidthForText G (Some ft) text width) = NUL ->
    wrapped_lines G ft width text 1
| lines_next : forall text k,
    text_at text (gl_printWidthForText G (Some ft) text width) <> NUL ->
    wrapped_lines G ft width
      (skipn (Z.to_nat (gl_printWidthForText G (Some ft) text width + 1)) text)
      k ->
    wrapped_lines G ft width text (k + 1).

(** The first [j] characters of a string. *)
Definition prefix (text : cstring) (j : Z) : list Z :=
  firstn (Z.to_nat j) (str_chars text).

(** Width of a run of counted characters. *)
Definition line_width (ft : glFont) (l : list (Z * Z)) : Z :=
  adv_sum ft (map snd l).

(** The first [k] counted characters stay within [width]. *)
Definition fits_upto (ft : glFont) (width : Z) (line : list (Z * Z))
    (k : nat) : Prop :=
  forall j, (1 <= j <= k)%nat -> line_width ft (firstn j line) <= width.

(** The counted character number [k] (from 0) is the first to take the
    accumulated width beyond [width]. *)
Definition overflows_at (ft : glFont) (width : Z) (line : list (Z * Z))
    (k : nat) : Prop :=
  (k < length line)%nat /\
  fits_upto ft width line k /\
  width < line_width ft (firstn (S k) line).

Definition no_space (l : list (Z * Z)) : Prop :=
  forall p, In p l -> snd p <> SPACE.


(** The GL call that sets the colour the caller supplied, white when the
    caller passed NULL. *)
Definition caller_colour (c : option glColour) : gl_call :=
  match c with
  | None => glColor4d 1 1 1 1
  | Some col => glColor4d (r col) (g col) (b col) (a col)
  end.

Definition caller_alpha (c : option glColour) : Q :=
  match c with
  | None => 1%Q
  | Some col => a col
  end.

(** The two triangles of the quad of glyph [ch], as indices into the
    vertex buffer. *)
Definition glyph_quad (ch : Z) : list Z :=
  map GLushort [4 * ch + 0; 4 * ch + 1; 4 * ch + 3;
                4 * ch + 1; 4 * ch + 3; 4 * ch + 2].

(** ** Test fixtures *)

(** A font of height 12: every glyph advances 10, the space 5. *)
Definition font10 : glFont :=
  mkFont 12 (fun ch => mkFontChar (if ch =? SPACE then 5 else 10) 0) 1 1.

Definition opaque (red green blue : Q) : glColour := mkColour red green blue 1.

(** Globals with [font10] as the default font and no power-of-two rule. *)
Definition G0 : Globals :=
  mkGlobals font10 (opaque 1 0 0) (opaque 0 1 0) (opaque 0 0 1)
            800 600 false (fun v => v).


(** 128 glyphs, each 5 wide and 9 high. *)
Definition glyphs_5x9 : list Atlas.font_char_t :=
  repeat (Atlas.mk_char 5 9 0 9 6 0) 128.

(** ** gl_printRaw and gl_printTextRaw *)

(** [for (i=0; text[i] != '\0'; i++) s = gl_fontRenderCharacter(...);] with
    [text] standing for [&text[i]]. *)
Fixpoint render_all (G : Globals) (ft : glFont) (c : option glColour)
    (text : cstring) (s : Z) : GL Z :=
  match text with
  | [] => gl_ret s
  | ch :: rest =>
      if ch =? NUL then gl_ret s
      else
        (s1 <- gl_fontRenderCharacter G ft ch c s ;;
         render_all G ft c rest s1)%gl
  end.

(** gl_printRaw; [s0] is the indeterminate initial value of the local [s]. *)
Definition gl_printRaw (G : Globals) (ft_font : option glFont) (x y : Q)
    (c : option glColour) (text : cstring) (s0 : Z) : GL unit :=
  let ft := font_or_default G ft_font in
  (gl_fontRenderStart G ft x y c ;;;
   _ <- render_all G ft c text s0 ;;
   gl_fontRenderEnd)%gl.

(** The constant [-1e-5] of the loop test of gl_printTextRaw: the double
    nearest to a hundred-thousandth, negated. *)
Definition minus_epsilon : Q := - binary64 (1 # 100000).

(** The while loop of gl_printTextRaw: [text_p] is [&text[p]], [y] the
    line position and [s] the escape state carried from line to line.
    Each turn moves [p] by at least one character, so the loop is run on a
    fuel that the length of the text bounds; the result is [false] when
    the fuel runs out.  After the for loop [i] is [ret], or 0 for a
    negative [ret]. *)
Fixpoint text_loop (G : Globals) (ft : glFont) (width : Z)
    (c : option glColour) (fuel : nat) (text_p : cstring) (x y by_ : Q)
    (s : Z) : GL bool :=
  match fuel with
  | O => gl_ret false
  | S fuel' =>
      if Qle_bool (dsub y by_) minus_epsilon then gl_ret true
      else
        let ret := gl_printWidthForText G (Some ft) text_p width in
        let i := Z.max 0 ret in
        (gl_fontRenderStart G ft x y c ;;;
         s1 <- render_loop G ft c text_p 0 ret s ;;
         gl_fontRenderEnd ;;;
         if text_at text_p i =? NUL then gl_ret true
         else text_loop G ft width c fuel'
                (skipn (Z.to_nat (i + 1)) text_p) x
                (dsub y ((3 # 2) * inject_Z (h ft))) by_ s1)%gl
  end.

(** gl_printTextRaw: [Some 0] is the return value, [None] a loop that
    outlasts its fuel.  [by + height - (double)ft_font->h] is a sum and
    then a difference of doubles, each rounded. *)
Definition gl_printTextRaw (G : Globals) (ft_font : option glFont)
    (width height : Z) (bx by_ : Q) (c : option glColour) (text : cstring)
    (s0 : Z) : GL (option Z) :=
  let ft := font_or_default G ft_font in
  let x := bx in
  let y := dsub (dadd by_ (inject_Z height)) (inject_Z (h ft)) in
  (done <- text_loop G ft width c (S (length text)) text x y by_ s0 ;;
   gl_ret (if done then Some 0 else None))%gl.

(** ** gl_freeFont *)

(** The three pointers of a glFont that gl_freeFont works on: the texture
    name, and the addresses in [chars] and [vbo], [None] for NULL. *)
Record glFontRes := mkFontRes {
  res_texture : Z;
  res_chars : option Z;
  res_vbo : option Z
}.

(** The releasing calls, recorded in program order. *)
Inductive free_call :=
| glDeleteTextures (tex : Z)
| free (ptr : Z)
| gl_vboDestroy (ptr : Z).

(** gl_freeFont on the font it resolves to ([&gl_defFont] for NULL): the
    font afterwards and the calls made. *)
Definition gl_freeFont (font : glFontRes) : glFontRes * list free_call :=
  let calls1 := [glDeleteTextures (res_texture font)] in
  let calls2 := match res_chars font with
                | Some ptr => [free ptr]
                | None => []
                end in
  let calls3 := match res_vbo font with
                | Some ptr => [gl_vboDestroy ptr]
                | None => []
                end in
  (mkFontRes (res_texture font) None None, calls1 ++ calls2 ++ calls3).

(** ** font_genTextureAtlas: placing the glyphs *)

Module AtlasFill.

(** Where the loop under "Generate the texture" puts one glyph, and whether
    it warned "Font is still too small" on the way. *)
Record placement := mk_placement {
  glyph : Atlas.font_char_t;
  at_x : Z;
  at_y : Z;
  warned : bool
}.

(** The loop under "Generate the texture", as far as offsets go. *)
Fixpoint place_loop (chars : list Atlas.font_char_t)
    (maxh wt ht x_off y_off : Z) : list placement :=
  match chars with
  | [] => []
  | c :: rest =>
      if x_off + Atlas.w c >=? wt then
        let y_off1 := y_off + maxh in
        mk_placement c 0 y_off1 (y_off1 + maxh >=? ht)
          :: place_loop rest maxh wt ht (0 + Atlas.w c) y_off1
      else
        mk_placement c x_off y_off false
          :: place_loop rest maxh wt ht (x_off + Atlas.w c) y_off
  end.

(** The placements in the texture font_genTextureAtlas allocates. *)
Definition placements (G : Globals) (chars : list Atlas.font_char_t)
    : list placement :=
  let '(wt, ht) := Atlas.atlas_size G chars in
  place_loop chars (Atlas.max_h (Atlas.measure chars)) wt ht 0 0.

(** [offset] in the innermost loop, for pixel [(x, y)] of a glyph. *)
Definition pixel_offset (wt : Z) (p : placement) (x y : Z) : Z :=
  (at_y p + y) * wt + (at_x p + x).

(** The eight vertex coordinates stored for one glyph in the second half
    of [data_vbo]; they are ints converted to GLfloat. *)
Definition vertex_coords (c : Atlas.font_char_t) : list Z :=
  let vx := Atlas.off_x c in
  let vy := Atlas.off_y c - Atlas.h c in
  let vw := Atlas.w c in
  let vh := Atlas.h c in
  [ vx;      vy + vh;     (* top left *)
    vx + vw; vy + vh;     (* top right *)
    vx + vw; vy;          (* bottom right *)
    vx;      vy ].        (* bottom left *)

(** The second half of [data_vbo]: entries [8*128 + 8*i + k]. *)
Definition vertex_buffer (chars : list Atlas.font_char_t) : list Z :=
  flat_map vertex_coords chars.

(** The vertex array is activated with two floats per vertex: vertex
    number [j] is the pair at [2*j] and [2*j + 1]. *)
Definition fetch_vertex (buf : list Z) (j : Z) : Z * Z :=
  (nth (Z.to_nat (2 * j)) buf 0, nth (Z.to_nat (2 * j + 1)) buf 0).

End AtlasFill.

(** ** Reading a trace *)

(** The horizontal and vertical displacement a call adds to the matrix. *)
Definition call_dx (c : gl_call) : Q :=
  match c with
  | gl_matrixTranslate x _ => x
  | _ => 0%Q
  end.

Definition pen_dx (tr : list gl_call) : Q :=
  fold_right (fun c acc => (call_dx c + acc)%Q) 0%Q tr.

(** The index lists of the draw calls of a trace. *)
Fixpoint quads (tr : list gl_call) : list (list Z) :=
  match tr with
  | [] => []
  | glDrawElements_TRIANGLES ind :: rest => ind :: quads rest
  | _ :: rest => quads rest
  end.

Definition is_push (c : gl_call) : bool :=
  match c with gl_matrixPush => true | _ => false end.

Definition is_pop (c : gl_call) : bool :=
  match c with gl_matrixPop => true | _ => false end.

(** Number of render batches begun, and ended, in a trace. *)
Definition pushes (tr : list gl_call) : nat := length (filter is_push tr).
Definition pops (tr : list gl_call) : nat := length (filter is_pop tr).

(** A string without an escape marker before its terminator. *)
Definition escape_free (text : cstring) : Prop :=
  ~ In ESC (str_chars text).

(** The counted characters of a line that lie before index [ret]. *)
Definition counted_before (ret : Z) (line : list (Z * Z)) : list (Z * Z) :=
  filter (fun p => fst p <? ret) line.

(** A GL computation that only appends calls to the trace, the same calls
    whatever the trace was. *)
Definition appends {A : Type} (m : GL A) : Prop :=
  forall tr, m tr = (fst (m []), tr ++ snd (m [])).

(** The calls the renderer step can issue: a colour change, a draw, a
    translation. *)
Definition is_glyph_call (c : gl_call) : bool :=
  match c with
  | glColor4d _ _ _ _ => true
  | glDrawElements_TRIANGLES _ => true
  | gl_matrixTranslate _ _ => true
  | _ => false
  end.

(** Two escape states the renderer cannot tell apart. *)
Definition same_state (s s' : Z) : Prop := (s =? 1) = (s' =? 1).

(** Two glyphs placed apart: the first ends, in its row, where the second
    begins or before, or the second lies in a later row. *)
Definition separated (maxh : Z) (p q : AtlasFill.placement) : Prop :=
  (AtlasFill.at_y p = AtlasFill.at_y q /\
   AtlasFill.at_x p + Atlas.w (AtlasFill.glyph p) <= AtlasFill.at_x q) \/
  AtlasFill.at_y p + maxh <= AtlasFill.at_y q.

(** The texel [(X, Y)] of the atlas belongs to the bitmap of a placed
    glyph. *)
Definition covers (p : AtlasFill.placement) (X Y : Z) : Prop :=
  AtlasFill.at_x p <= X < AtlasFill.at_x p + Atlas.w (AtlasFill.glyph p) /\
  AtlasFill.at_y p <= Y < AtlasFill.at_y p + Atlas.h (AtlasFill.glyph p).

(** The sum of the widths of a run of glyphs. *)
Definition sum_w (chars : list Atlas.font_char_t) : Z :=
  fold_right (fun c acc => Atlas.w c + acc) 0 chars.

(** A font of odd height 13 with the advances of [font10]. *)
Definition font13 : glFont :=
  mkFont 13 (fun ch => mkFontChar (if ch =? SPACE then 5 else 10) 0) 1 1.

(** A box for which the arithmetic of gl_printTextRaw is exact: [by] is a
    whole number [b] of half pixels, and [b], the height and the [k] line
    steps together stay below [2^53] half pixels. *)
Definition half_pixel_box (by_ : Q) (height hh k : Z) : Prop :=
  exists b : Z,
    (by_ == inject_Z b * (1 # 2))%Q /\
    Z.abs b + 2 * Z.abs height + (3 * k + 2) * Z.abs hh < 2 ^ 53.

(** * Properties *)

(** ** font_limitSize *)

Section LimitSize.

Variable ft : glFont.

Lemma limit_loop_index_grows (text : cstring) (max : Z) :
  forall n i, i <= snd (limit_loop ft text max n i).
Proof.
  induction text as [|ch rest IH]; intros n i; simpl.
  - lia.
  - destruct (ch =? NUL); simpl; [lia|].
    destruct (n + char_adv ft ch >? max); simpl; [lia|].
    specialize (IH (n + char_adv ft ch) (i + 1)). lia.
Qed.

Lemma limit_loop_mono (text : cstring) (W1 W2 : Z) :
  W1 <= W2 ->
  forall n i,
    snd (limit_loop ft text W1 n i) <= snd (limit_loop ft text W2 n i).
Proof.
  intros HW.
  induction text as [|ch rest IH]; intros n i; simpl.
  - lia.
  - destruct (ch =? NUL); simpl; [lia|].
    destruct (Z.gtb_spec (n + char_adv ft ch) W1) as [H1|H1];
      destruct (Z.gtb_spec (n + char_adv ft ch) W2) as [H2|H2]; simpl.
    + lia.
    + pose proof (limit_loop_index_grows rest W2 (n + char_adv ft ch) (i + 1)).
      lia.
    + lia.
    + apply IH.
Qed.

(** What the loop leaves in [(n, i)]: it has taken [k] characters, every
    non-empty prefix it has taken fits, and the next character, when there
    is one, does not. *)
Lemma limit_loop_spec (text : cstring) (max : Z) :
  forall n i,
  exists k : nat,
    (k <= length (str_chars text))%nat /\
    limit_loop ft text max n i
      = (n + adv_sum ft (firstn k (str_chars text)), i + Z.of_nat k) /\
    (forall j, (1 <= j <= k)%nat ->
       n + adv_sum ft (firstn j (str_chars text)) <= max) /\
    ((k < length (str_chars text))%nat ->
       max < n + adv_sum ft (firstn (S k) (str_chars text))).
Proof.
  induction text as [|ch rest IH]; intros n i; simpl.
  - exists 0%nat. simpl. repeat split; try lia. f_equal; lia.
  - destruct (ch =? NUL) eqn:Hnul; simpl.
    + exists 0%nat. simpl. repeat split; try lia. f_equal; lia.
    + destruct (Z.gtb_spec (n + char_adv ft ch) max) as [Hov|Hfit].
      * exists 0%nat. simpl. repeat split; try lia. f_equal; lia.
      * destruct (IH (n + char_adv ft ch) (i + 1)) as (k & Hk & Heq & Hfits & Hnext).
        exists (S k). simpl. repeat split.
        -- lia.
        -- rewrite Heq. f_equal; lia.
        -- intros j Hj. destruct j as [|j]; [lia|]. simpl.
           destruct j as [|j]; [simpl; lia|].
           specialize (Hfits (S j)). simpl in Hfits. simpl. lia.
        -- intros Hlt. assert (Hlt' : (k < length (str_chars rest))%nat) by lia.
           specialize (Hnext Hlt'). simpl in Hnext. lia.
Qed.

Lemma adv_sum_app (l1 l2 : list Z) :
  adv_sum ft (l1 ++ l2) = adv_sum ft l1 + adv_sum ft l2.
Proof.
  induction l1 as [|c l1 IH]; simpl; [reflexivity|]. rewrite IH. lia.
Qed.

Lemma adv_sum_nonneg (l : list Z) :
  (forall ch, In ch l -> 0 <= char_adv ft ch) -> 0 <= adv_sum ft l.
Proof.
  induction l as [|c l IH]; intros Hpos; simpl; [lia|].
  assert (0 <= char_adv ft c) by (apply Hpos; left; reflexivity).
  assert (0 <= adv_sum ft l) by (apply IH; intros; apply Hpos; right; assumption).
  lia.
Qed.

(** With advances that are not negative a longer prefix is not narrower. *)
Lemma adv_sum_firstn_mono (l : list Z) (j k : nat) :
  (forall ch, In ch l -> 0 <= char_adv ft ch) ->
  (j <= k)%nat ->
  adv_sum ft (firstn j l) <= adv_sum ft (firstn k l).
Proof.
  revert j k.
  induction l as [|c l IH]; intros j k Hpos Hjk.
  - rewrite !firstn_nil. lia.
  - assert (Hc : 0 <= char_adv ft c) by (apply Hpos; left; reflexivity).
    assert (Hl : forall ch, In ch l -> 0 <= char_adv ft ch)
      by (intros; apply Hpos; right; assumption).
    destruct j as [|j]; destruct k as [|k]; simpl; try lia.
    + pose proof (adv_sum_nonneg (firstn k l)) as Hk.
      assert (0 <= adv_sum ft (firstn k l)); [|lia].
      apply (IH 0%nat k Hl). lia.
    + assert (adv_sum ft (firstn j l) <= adv_sum ft (firstn k l)); [|lia].
      apply IH; [assumption|lia].
Qed.

End LimitSize.

Lemma adv_sum_firstn_S (ft : glFont) (l : list Z) (k : nat) :
  (k < length l)%nat ->
  adv_sum ft (firstn (S k) l)
    = adv_sum ft (firstn k l) + char_adv ft (nth k l NUL).
Proof.
  revert k. induction l as [|c l IH]; intros k Hk; simpl in Hk; [lia|].
  destruct k as [|k].
  - simpl. lia.
  - change (firstn (S (S k)) (c :: l)) with (c :: firstn (S k) l).
    change (firstn (S k) (c :: l)) with (c :: firstn k l).
    cbn [adv_sum nth]. rewrite IH by lia. lia.
Qed.

Lemma str_chars_nth (text : cstring) (k : nat) :
  (k < length (str_chars text))%nat ->
  nth k (str_chars text) NUL = nth k text NUL.
Proof.
  revert k. induction text as [|c rest IH]; intros k Hk; simpl in *; [lia|].
  destruct (c =? NUL); simpl in *; [lia|].
  destruct k as [|k]; [reflexivity|]. apply IH. lia.
Qed.

(** C6, as the code has it: font_limitSize takes the characters in order
    while the width stays within the budget.  For a font whose advances
    are not negative on the characters of the text, and a budget that is
    not negative, the count it returns is the length of the longest prefix
    that fits, the width it stores is the width of that prefix, and the
    character that would overflow is in neither; the empty text gives
    count 0, width 0. *)
Theorem font_limitSize_longest_prefix
    (ft : glFont) (w0 : Z) (text : cstring) (max : Z) :
  (forall ch, In ch (str_chars text) -> 0 <= char_adv ft ch) ->
  0 <= max ->
  exists count n : Z,
    font_limitSize ft (Some w0) (Some text) max = (count, Some n) /\
    0 <= count <= strlen text /\
    n = adv_sum ft (prefix text count) /\
    n <= max /\
    (forall j, count < j <= strlen text -> max < adv_sum ft (prefix text j)) /\
    (count < strlen text -> max < n + char_adv ft (text_at text count)) /\
    (strlen text = 0 -> count = 0 /\ n = 0).
Proof.
  intros Hpos Hmax.
  destruct (limit_loop_spec ft text max 0 0) as (k & Hk & Heq & Hfits & Hnext).
  exists (Z.of_nat k), (adv_sum ft (firstn k (str_chars text))).
  unfold font_limitSize, strlen, prefix. rewrite Heq. simpl.
  rewrite Nat2Z.id.
  repeat split; try lia.
  - destruct k as [|k]; [simpl; lia|].
    specialize (Hfits (S k)). lia.
  - intros j Hj.
    assert (Hlt : (k < length (str_chars text))%nat) by lia.
    specialize (Hnext Hlt).
    pose proof (adv_sum_firstn_mono ft (str_chars text) (S k) (Z.to_nat j) Hpos).
    lia.
  - intros Hlt.
    assert (Hlt' : (k < length (str_chars text))%nat) by lia.
    specialize (Hnext Hlt').
    rewrite adv_sum_firstn_S in Hnext by assumption.
    rewrite str_chars_nth in Hnext by assumption.
    unfold text_at.
    destruct (Z.ltb_spec (Z.of_nat k) 0); [lia|].
    rewrite Nat2Z.id. lia.
  - assert (k = 0%nat) by lia. subst k. reflexivity.
Qed.

Lemma font10_advances (ch : Z) : 0 <= char_adv font10 ch.
Proof.
  unfold char_adv, font10; simpl. destruct (ch =? SPACE); lia.
Qed.

Lemma font_limitSize_longest_prefix_witness :
  (forall ch, In ch (str_chars (c_str "abcde")) -> 0 <= char_adv font10 ch) /\
  0 <= 25 /\
  exists count n : Z,
    font_limitSize font10 (Some 0) (Some (c_str "abcde")) 25
      = (count, Some n) /\
    0 <= count <= strlen (c_str "abcde") /\
    n = adv_sum font10 (prefix (c_str "abcde") count) /\
    n <= 25 /\
    (forall j, count < j <= strlen (c_str "abcde") ->
       25 < adv_sum font10 (prefix (c_str "abcde") j)) /\
    (count < strlen (c_str "abcde") ->
       25 < n + char_adv font10 (text_at (c_str "abcde") count)) /\
    (strlen (c_str "abcde") = 0 -> count = 0 /\ n = 0).
Proof.
  split; [intros ch _; apply font10_advances|].
  split; [lia|].
  apply (font_limitSize_longest_prefix font10 0 (c_str "abcde") 25).
  - intros ch _; apply font10_advances.
  - lia.
Defined.

(** C6, as the specification states it, for every budget: with a budget
    of -5 the loop stops at the first character and font_limitSize returns
    count 0 and width 0, but the width 0 of the empty prefix is not at
    most -5, and neither is the width of any other prefix. *)
Lemma font_limitSize_negative_budget :
  font_limitSize font10 (Some 0) (Some (c_str "abc")) (-5) = (0, Some 0) /\
  adv_sum font10 (prefix (c_str "abc") 0) = 0 /\
  ~ adv_sum font10 (prefix (c_str "abc") 0) <= -5 /\
  (forall j, 0 <= j <= strlen (c_str "abc") ->
     ~ adv_sum font10 (prefix (c_str "abc") j) <= -5).
Proof.
  split; [reflexivity|]. split; [reflexivity|].
  split; [vm_compute; intros Hle; apply Hle; reflexivity|].
  intros j Hj.
  assert (Hcases : j = 0 \/ j = 1 \/ j = 2 \/ j = 3).
  { change (strlen (c_str "abc")) with 3 in Hj. lia. }
  destruct Hcases as [Hj0|[Hj1|[Hj2|Hj3]]]; subst j;
    vm_compute; intros Hle; apply Hle; reflexivity.
Qed.

(** C9: the count font_limitSize returns does not decrease when the budget
    grows. *)
Theorem font_limitSize_monotonic
    (ft : glFont) (width : option Z) (text : option cstring) (W1 W2 : Z) :
  W1 <= W2 ->
  fst (font_limitSize ft width text W1) <= fst (font_limitSize ft width text W2).
Proof.
  intros HW. destruct text as [t|]; simpl; [|lia].
  pose proof (limit_loop_mono ft t W1 W2 HW 0 0) as Hm.
  destruct (limit_loop ft t W1 0 0) as [n1 i1].
  destruct (limit_loop ft t W2 0 0) as [n2 i2].
  simpl in *. exact Hm.
Qed.

Lemma font_limitSize_monotonic_witness :
  25 <= 45 /\
  fst (font_limitSize font10 None (Some (c_str "abcde")) 25)
    <= fst (font_limitSize font10 None (Some (c_str "abcde")) 45).
Proof.
  split; [lia|].
  apply (font_limitSize_monotonic font10 None (Some (c_str "abcde")) 25 45).
  lia.
Defined.

(** C10: with a NULL text font_limitSize returns 0 and leaves the width
    out-parameter as it was; there is no string to read. *)
Theorem font_limitSize_null_text (ft : glFont) (width : option Z) (max : Z) :
  font_limitSize ft width None max = (0, width).
Proof.
  reflexivity.
Qed.

(** ** gl_printWidthForText *)

Section WidthForText.

Variable ft : glFont.
Variable width : Z.

Lemma last_space_cons (dflt i ch : Z) (l : list (Z * Z)) :
  last_space dflt ((i, ch) :: l)
    = last_space (if ch =? SPACE then i else dflt) l.
Proof. reflexivity. Qed.

(** The loop computes what the specification-level functions describe,
    from any loop state. *)
Lemma wft_loop_spec_len (m : nat) :
  forall text, (length text <= m)%nat ->
  forall i n ls,
    wft_loop ft text width i n ls =
    match overflow_prefix ft width n (scan text i) with
    | Some seen => last_space ls seen
    | None => scan_end text i
    end.
Proof.
  induction m as [|m IH]; intros text Hlen i n ls.
  - destruct text; [reflexivity | simpl in Hlen; lia].
  - destruct text as [|ch rest]; [reflexivity|].
    simpl in Hlen. cbn [wft_loop scan scan_end].
    destruct ((ch =? NEWLINE) || (ch =? NUL)) eqn:Hend; [reflexivity|].
    destruct (Z.eqb_spec ch TAB) as [Htab|Htab].
    + subst ch. change (TAB =? ESC) with false. cbv iota.
      apply IH. lia.
    + destruct (ch =? ESC) eqn:Hesc.
      * destruct rest as [|d rest'].
        -- reflexivity.
        -- destruct (d =? NUL) eqn:Hd.
           ++ cbn [wft_loop]. rewrite Hd, orb_true_r. reflexivity.
           ++ apply IH. simpl in Hlen. lia.
      * cbn [overflow_prefix].
        destruct (n + char_adv ft ch >? width) eqn:Hov.
        -- reflexivity.
        -- rewrite (IH rest) by lia.
           destruct (overflow_prefix ft width (n + char_adv ft ch)
                       (scan rest (i + 1))) as [seen|]; reflexivity.
Qed.

Lemma overflow_prefix_none (l : list (Z * Z)) :
  forall n,
    (forall j, (1 <= j)%nat -> n + line_width ft (firstn j l) <= width) ->
    overflow_prefix ft width n l = None.
Proof.
  induction l as [|[i ch] rest IH]; intros n Hfit; [reflexivity|].
  cbn [overflow_prefix].
  pose proof (Hfit 1%nat ltac:(lia)) as H1.
  unfold line_width in H1. simpl in H1.
  destruct (Z.gtb_spec (n + char_adv ft ch) width) as [Hgt|_]; [lia|].
  rewrite IH; [reflexivity|].
  intros j Hj. specialize (Hfit (S j) ltac:(lia)).
  unfold line_width in *. simpl in Hfit. lia.
Qed.

Lemma overflow_prefix_at (l : list (Z * Z)) :
  forall n k,
    (k < length l)%nat ->
    (forall j, (1 <= j <= k)%nat -> n + line_width ft (firstn j l) <= width) ->
    width < n + line_width ft (firstn (S k) l) ->
    overflow_prefix ft width n l = Some (firstn (S k) l).
Proof.
  induction l as [|[i ch] rest IH]; intros n k Hk Hfit Hov;
    [simpl in Hk; lia|].
  cbn [overflow_prefix]. simpl in Hk.
  destruct k as [|k].
  - unfold line_width in Hov. simpl in Hov.
    destruct (Z.gtb_spec (n + char_adv ft ch) width) as [_|Hle]; [reflexivity|lia].
  - pose proof (Hfit 1%nat ltac:(lia)) as H1.
    unfold line_width in H1. simpl in H1.
    destruct (Z.gtb_spec (n + char_adv ft ch) width) as [Hgt|_]; [lia|].
    rewrite (IH (n + char_adv ft ch) k).
    + reflexivity.
    + lia.
    + intros j Hj. specialize (Hfit (S j) ltac:(lia)).
      unfold line_width in *. simpl in Hfit. lia.
    + unfold line_width in *.
      change (firstn (S (S k)) ((i, ch) :: rest))
        with ((i, ch) :: firstn (S k) rest) in Hov.
      cbn [map snd adv_sum] in Hov. lia.
Qed.

Lemma last_space_no_space (l : list (Z * Z)) :
  forall dflt, no_space l -> last_space dflt l = dflt.
Proof.
  induction l as [|[i ch] rest IH]; intros dflt Hns; [reflexivity|].
  rewrite last_space_cons.
  assert (Hch : ch <> SPACE) by (apply (Hns (i, ch)); left; reflexivity).
  destruct (Z.eqb_spec ch SPACE) as [Heq|_]; [contradiction|].
  apply IH. intros p Hp. apply Hns. right. exact Hp.
Qed.

Lemma last_space_found (l1 l2 : list (Z * Z)) (i : Z) :
  forall dflt,
    no_space l2 -> last_space dflt (l1 ++ (i, SPACE) :: l2) = i.
Proof.
  intros dflt Hns. unfold last_space. rewrite fold_left_app.
  cbn [fold_left snd fst]. rewrite Z.eqb_refl.
  apply last_space_no_space. exact Hns.
Qed.

Lemma wft_loop_wrap_spec (text : cstring) :
  wft_loop ft text width 0 0 0 = wrap_spec ft text width.
Proof.
  unfold wrap_spec. apply (wft_loop_spec_len (length text)). lia.
Qed.

End WidthForText.

(** Induction over a string two characters at a time, as the escape
    branches step. *)
Lemma cstring_ind2 (P : cstring -> Prop) :
  P [] ->
  (forall c, P [c]) ->
  (forall c d rest, P rest -> P (d :: rest) -> P (c :: d :: rest)) ->
  forall text, P text.
Proof.
  intros Hnil Hone Htwo text.
  assert (Hboth : P text /\ forall c, P (c :: text)); [|apply Hboth].
  induction text as [|d rest [IH1 IH2]].
  - split; [exact Hnil | exact Hone].
  - split; [apply IH2|].
    intros c. apply Htwo; [exact IH1 | apply IH2].
Qed.

Lemma nth_shift (c : Z) (l : list Z) (i j : Z) :
  i + 1 <= j ->
  nth (Z.to_nat (j - i)) (c :: l) NUL = nth (Z.to_nat (j - (i + 1))) l NUL.
Proof.
  intros Hij.
  replace (Z.to_nat (j - i)) with (S (Z.to_nat (j - (i + 1)))) by lia.
  reflexivity.
Qed.

(** A counted character sits in the text at the index the scan gives it,
    and it is not a tab. *)
Lemma scan_counted (text : cstring) :
  forall i j ch,
    In (j, ch) (scan text i) ->
    i <= j /\ nth (Z.to_nat (j - i)) text NUL = ch /\ ch <> TAB.
Proof.
  induction text as [|c|c d rest IH1 IH2] using cstring_ind2;
    intros i j ch Hin.
  - contradiction.
  - cbn [scan] in Hin.
    destruct ((c =? NEWLINE) || (c =? NUL)); [contradiction|].
    destruct (Z.eqb_spec c TAB) as [Ht|Ht]; [contradiction|].
    destruct (c =? ESC); [contradiction|].
    destruct Hin as [Heq|[]]. inversion Heq; subst.
    replace (j - j) with 0 by lia. repeat split; [lia | assumption].
  - cbn [scan] in Hin.
    destruct ((c =? NEWLINE) || (c =? NUL)); [contradiction|].
    destruct (Z.eqb_spec c TAB) as [Ht|Ht].
    + destruct (IH2 _ _ _ Hin) as (Hle & Hnth & Hnt).
      rewrite nth_shift by lia. repeat split; [lia | assumption | assumption].
    + destruct (c =? ESC).
      * destruct (d =? NUL); [contradiction|].
        destruct (IH1 _ _ _ Hin) as (Hle & Hnth & Hnt).
        rewrite nth_shift by lia.
        replace (j - (i + 1)) with (j - (i + 1 + 1) + 1) by lia.
        replace (j - (i + 1 + 1) + 1) with (j - (i + 1)) by lia.
        rewrite nth_shift by lia.
        replace (i + 1 + 1) with (i + 2) by lia.
        repeat split; [lia | assumption | assumption].
      * destruct Hin as [Heq|Hin].
        -- inversion Heq; subst.
           replace (j - j) with 0 by lia. repeat split; [lia | assumption].
        -- destruct (IH2 _ _ _ Hin) as (Hle & Hnth & Hnt).
           rewrite nth_shift by lia.
           repeat split; [lia | assumption | assumption].
Qed.

Lemma scan_end_cons (c : Z) (rest : cstring) (i : Z) :
  scan_end (c :: rest) i =
  if (c =? NEWLINE) || (c =? NUL) then i
  else if c =? ESC then
    match rest with
    | [] => i + 1
    | d :: rest' => if d =? NUL then i + 1 else scan_end rest' (i + 2)
    end
  else scan_end rest (i + 1).
Proof. reflexivity. Qed.

(** The scan ends on a newline or on the terminator. *)
Lemma scan_end_stops (text : cstring) :
  forall i,
    i <= scan_end text i /\
    (nth (Z.to_nat (scan_end text i - i)) text NUL = NEWLINE \/
     nth (Z.to_nat (scan_end text i - i)) text NUL = NUL).
Proof.
  induction text as [|c|c d rest IH1 IH2] using cstring_ind2; intros i.
  - simpl. split; [lia|]. right. destruct (Z.to_nat (i - i)); reflexivity.
  - rewrite scan_end_cons.
    destruct (Z.eqb_spec c NEWLINE) as [Hn|Hn];
      [|destruct (Z.eqb_spec c NUL) as [Hz|Hz]]; cbn [orb].
    + replace (i - i) with 0 by lia. split; [lia|]. left. exact Hn.
    + replace (i - i) with 0 by lia. split; [lia|]. right. exact Hz.
    + destruct (c =? ESC); cbn [scan_end];
        (replace (i + 1 - i) with 1 by lia; split; [lia|]; right; reflexivity).
  - rewrite scan_end_cons.
    destruct (Z.eqb_spec c NEWLINE) as [Hn|Hn];
      [|destruct (Z.eqb_spec c NUL) as [Hz|Hz]]; cbn [orb].
    + replace (i - i) with 0 by lia. split; [lia|]. left. exact Hn.
    + replace (i - i) with 0 by lia. split; [lia|]. right. exact Hz.
    + destruct (c =? ESC).
      * destruct (Z.eqb_spec d NUL) as [Hd|Hd].
        -- replace (i + 1 - i) with 1 by lia. split; [lia|]. right. exact Hd.
        -- destruct (IH1 (i + 2)) as (Hle & Hstop).
           split; [lia|].
           rewrite nth_shift by lia. rewrite nth_shift by lia.
           replace (i + 1 + 1) with (i + 2) by lia. exact Hstop.
      * destruct (IH2 (i + 1)) as (Hle & Hstop).
        split; [lia|]. rewrite nth_shift by lia. exact Hstop.
Qed.

(** The scan does not pass a terminator, and a newline it passes is the
    directive byte of an escape sequence. *)
Lemma scan_end_first (text : cstring) :
  forall i j,
    i <= j < scan_end text i ->
    nth (Z.to_nat (j - i)) text NUL <> NUL /\
    (nth (Z.to_nat (j - i)) text NUL = NEWLINE ->
     i < j /\ nth (Z.to_nat (j - 1 - i)) text NUL = ESC).
Proof.
  induction text as [|c|c d rest IH1 IH2] using cstring_ind2; intros i j.
  - simpl. lia.
  - rewrite scan_end_cons.
    destruct (Z.eqb_spec c NEWLINE) as [Hn|Hn];
      [|destruct (Z.eqb_spec c NUL) as [Hz|Hz]]; cbn [orb]; try lia.
    destruct (c =? ESC); cbn [scan_end]; intros Hj;
      (replace (j - i) with 0 by lia; cbn [Z.to_nat nth];
       split; [exact Hz | intros; contradiction]).
  - rewrite scan_end_cons.
    destruct (Z.eqb_spec c NEWLINE) as [Hn|Hn];
      [|destruct (Z.eqb_spec c NUL) as [Hz|Hz]]; cbn [orb]; try lia.
    assert (Hhead : nth (Z.to_nat 0) (c :: d :: rest) NUL <> NUL /\
                    (nth (Z.to_nat 0) (c :: d :: rest) NUL = NEWLINE ->
                     i < i /\ nth (Z.to_nat (i - 1 - i)) (c :: d :: rest) NUL
                               = ESC))
      by (cbn [Z.to_nat nth]; split; [exact Hz | intros; contradiction]).
    destruct (Z.eqb_spec c ESC) as [He|He].
    + destruct (Z.eqb_spec d NUL) as [Hd|Hd]; intros Hj.
      * replace j with i by lia. replace (i - i) with 0 by lia. exact Hhead.
      * destruct (Z.eq_dec j i) as [->|Hji];
          [replace (i - i) with 0 by lia; exact Hhead|].
        destruct (Z.eq_dec j (i + 1)) as [->|Hji1].
        -- replace (i + 1 - i) with 1 by lia.
           replace (i + 1 - 1 - i) with 0 by lia.
           cbn [Z.to_nat Pos.to_nat Pos.iter_op Init.Nat.add nth].
           split; [exact Hd|]. intros _. split; [lia | exact He].
        -- destruct (IH1 (i + 2) j ltac:(lia)) as (Hnz & Hnl).
           rewrite nth_shift by lia. rewrite nth_shift by lia.
           replace (i + 1 + 1) with (i + 2) by lia.
           split; [exact Hnz|]. intros Hnew.
           destruct (Hnl Hnew) as (Hlt & Hesc).
           split; [lia|].
           rewrite nth_shift by lia. rewrite nth_shift by lia.
           replace (j - 1 - (i + 1 + 1)) with (j - 1 - (i + 2)) by lia.
           exact Hesc.
    + intros Hj.
      destruct (Z.eq_dec j i) as [->|Hji];
        [replace (i - i) with 0 by lia; exact Hhead|].
      destruct (IH2 (i + 1) j ltac:(lia)) as (Hnz & Hnl).
      rewrite nth_shift by lia.
      split; [exact Hnz|]. intros Hnew.
      destruct (Hnl Hnew) as (Hlt & Hesc).
      split; [lia|]. rewrite nth_shift by lia. exact Hesc.
Qed.

Lemma text_at_nth (text : cstring) (i : Z) :
  0 <= i -> text_at text i = nth (Z.to_nat (i - 0)) text NUL.
Proof.
  intros Hi. unfold text_at.
  destruct (Z.ltb_spec i 0); [lia|]. rewrite Z.sub_0_r. reflexivity.
Qed.

(** C5, as the code has it: gl_printWidthForText counts the characters of
    the first line, leaving out tabs (and escape sequences).  The scan
    passes no terminator, and no newline but one that is the directive of
    an escape sequence.  When no prefix of the counted characters is wider
    than the budget it returns the index of the newline or terminator that
    ends the scan.  When one is, it returns the
    index of the last space among the characters counted so far, the
    overflowing one included, and 0 when there is none.  With letters of
    advance 10 and a space of advance 5, "abc def" with budget 25 gives 0:
    the width passes 25 at 'c', before any space is seen. *)
Theorem gl_printWidthForText_wraps
    (G : Globals) (ft_font : option glFont) (text : cstring) (width : Z) :
  let ft := font_or_default G ft_font in
  let line := scan text 0 in
  let ret := gl_printWidthForText G ft_font text width in
  (forall j ch, In (j, ch) line -> text_at text j = ch /\ ch <> TAB) /\
  (forall j, 0 <= j < scan_end text 0 ->
     text_at text j <> NUL /\
     (text_at text j = NEWLINE -> text_at text (j - 1) = ESC)) /\
  ((forall k, (1 <= k)%nat -> line_width ft (firstn k line) <= width) ->
   ret = scan_end text 0 /\
   (text_at text ret = NEWLINE \/ text_at text ret = NUL)) /\
  (forall k,
     overflows_at ft width line k ->
     no_space (firstn (S k) line) ->
     ret = 0) /\
  (forall k seen i later,
     overflows_at ft width line k ->
     firstn (S k) line = seen ++ (i, SPACE) :: later ->
     no_space later ->
     ret = i) /\
  gl_printWidthForText G (Some font10) (c_str "abc def") 25 = 0.
Proof.
  intros ft line ret.
  assert (Hret : ret = wrap_spec ft text width)
    by (apply wft_loop_wrap_spec).
  split; [|split; [|split; [|split; [|split]]]].
  - intros j ch Hin.
    destruct (scan_counted text 0 j ch Hin) as (Hle & Hnth & Hnt).
    rewrite text_at_nth by lia. split; assumption.
  - intros j Hj.
    destruct (scan_end_first text 0 j Hj) as (Hnz & Hnl).
    rewrite text_at_nth by lia. split; [exact Hnz|].
    intros Hnew. destruct (Hnl Hnew) as (Hlt & Hesc).
    rewrite text_at_nth by lia. exact Hesc.
  - intros Hfit.
    assert (Hend : ret = scan_end text 0).
    { rewrite Hret. unfold wrap_spec.
      rewrite overflow_prefix_none; [reflexivity|].
      intros j Hj. specialize (Hfit j Hj). fold line. lia. }
    split; [exact Hend|].
    destruct (scan_end_stops text 0) as (Hle & Hstop).
    rewrite Hend, text_at_nth by lia. exact Hstop.
  - intros k (Hk & Hfit & Hov) Hns.
    rewrite Hret. unfold wrap_spec. fold line.
    rewrite (overflow_prefix_at ft width line 0 k Hk).
    + apply last_space_no_space. exact Hns.
    + intros j Hj. specialize (Hfit j Hj). lia.
    + lia.
  - intros k seen i later (Hk & Hfit & Hov) Hsplit Hns.
    rewrite Hret. unfold wrap_spec. fold line.
    rewrite (overflow_prefix_at ft width line 0 k Hk).
    + rewrite Hsplit. apply last_space_found. exact Hns.
    + intros j Hj. specialize (Hfit j Hj). lia.
    + lia.
  - reflexivity.
Qed.

(** C5, the example as the specification states it: the break is not at
    index 3. *)
Lemma gl_printWidthForText_abc_def_25 :
  gl_printWidthForText G0 (Some font10) (c_str "abc def") 25 <> 3.
Proof.
  vm_compute. discriminate.
Qed.

(** The overflow case of the example is a real one: 'c', the third counted
    character, is the first to pass 25. *)
Lemma gl_printWidthForText_abc_def_overflow :
  overflows_at font10 25 (scan (c_str "abc def") 0) 2.
Proof.
  unfold overflows_at, fits_upto. repeat split.
  - vm_compute. lia.
  - intros j Hj.
    assert (Hcases : j = 1%nat \/ j = 2%nat) by lia.
    destruct Hcases as [-> | ->]; vm_compute; discriminate.
Qed.

(** ** gl_printHeightRaw *)

Lemma int_of_double_comp (x y : Q) :
  (x == y)%Q -> int_of_double x = int_of_double y.
Proof.
  intros Exy. unfold int_of_double.
  rewrite (Qleb_comp 0%Q 0%Q (Qeq_refl 0%Q) x y Exy).
  destruct (Qle_bool 0 y); [apply Qfloor_comp | apply Qceiling_comp]; exact Exy.
Qed.

(** Truncation of a half-integer. *)
Lemma int_of_double_half (m : Z) : int_of_double (m # 2) = Z.quot m 2.
Proof.
  unfold int_of_double, Qle_bool, Qceiling, Qfloor. simpl.
  rewrite Z.mul_1_r.
  destruct (Z.leb_spec 0 m) as [Hm|Hm].
  - symmetry. apply Z.quot_div_nonneg; lia.
  - replace m with (- (- m)) at 2 by lia.
    rewrite Z.quot_opp_l by lia.
    rewrite Z.quot_div_nonneg by lia. reflexivity.
Qed.

Section Height.

Variable G : Globals.
Variable ft : glFont.
Variable width : Z.

Lemma text_at_in_range (text : cstring) (i : Z) :
  text_at text i <> NUL -> 0 <= i /\ (Z.to_nat i < length text)%nat.
Proof.
  unfold text_at. intros Hne.
  destruct (Z.ltb_spec i 0) as [Hneg|Hpos]; [contradiction|].
  split; [exact Hpos|].
  destruct (Nat.lt_ge_cases (Z.to_nat i) (length text)) as [Hlt|Hge];
    [exact Hlt|].
  rewrite nth_overflow in Hne by exact Hge. contradiction.
Qed.

(** The loop ends within its fuel, after as many turns as the text has
    lines, and each turn adds one and a half line heights. *)
Lemma height_loop_lines (fuel : nat) :
  forall text_p y,
    (length text_p < fuel)%nat ->
    exists k y',
      1 <= k /\
      wrapped_lines G ft width text_p k /\
      height_loop G ft width fuel text_p y = Some y' /\
      (y' == y + inject_Z k * ((3 # 2) * inject_Z (h ft)))%Q.
Proof.
  induction fuel as [|fuel IH]; intros text_p y Hlen; [lia|].
  cbn [height_loop].
  destruct (Z.eqb_spec
              (text_at text_p (gl_printWidthForText G (Some ft) text_p width))
              NUL) as [Hend|Hmore].
  - exists 1, (y + (3 # 2) * inject_Z (h ft))%Q.
    split; [lia|]. split; [apply lines_last; exact Hend|].
    split; [reflexivity|]. ring.
  - destruct (text_at_in_range _ _ Hmore) as (Hi & Hin).
    destruct (IH (skipn (Z.to_nat
                    (gl_printWidthForText G (Some ft) text_p width + 1)) text_p)
                 (y + (3 # 2) * inject_Z (h ft))%Q)
      as (k & y' & Hk & Hlines & Hrun & Hy).
    { rewrite length_skipn. lia. }
    exists (k + 1), y'.
    split; [lia|]. split; [apply lines_next; assumption|].
    split; [exact Hrun|].
    rewrite Hy, inject_Z_plus. ring.
Qed.

(** The number of lines is determined by the text. *)
Lemma wrapped_lines_unique (text : cstring) (k1 k2 : Z) :
  wrapped_lines G ft width text k1 ->
  wrapped_lines G ft width text k2 ->
  k1 = k2.
Proof.
  intros H1. revert k2.
  induction H1 as [text Hend | text k Hmore Hrest IH]; intros k2 H2.
  - inversion H2 as [t Hend2 | t k' Hmore2 Hrest2]; subst;
      [reflexivity | contradiction].
  - inversion H2 as [t Hend2 | t k' Hmore2 Hrest2]; subst;
      [contradiction|].
    f_equal. apply IH. exact Hrest2.
Qed.

End Height.

(** C3, as the code has it: for a text that is not empty gl_printHeightRaw
    returns one and a half line heights for each line that repeated
    wrapping yields, less half a line height, truncated to an int; for the
    empty text it returns 0. *)
Theorem gl_printHeightRaw_lines
    (G : Globals) (ft_font : option glFont) (width : Z) (text : cstring) :
  let ft := font_or_default G ft_font in
  (text_at text 0 = NUL ->
   gl_printHeightRaw G ft_font width text = Some 0) /\
  (text_at text 0 <> NUL ->
   exists k,
     1 <= k /\
     wrapped_lines G ft width text k /\
     gl_printHeightRaw G ft_font width text
       = Some (int_of_double ((3 # 2) * inject_Z (h ft) * inject_Z k
                              - (1 # 2) * inject_Z (h ft))%Q) /\
     gl_printHeightRaw G ft_font width text
       = Some (Z.quot (h ft * (3 * k - 1)) 2)).
Proof.
  intros ft. unfold gl_printHeightRaw. fold ft. split.
  - intros Hnul. rewrite Hnul. reflexivity.
  - intros Hne.
    destruct (Z.eqb_spec (text_at text 0) NUL) as [Heq|_]; [contradiction|].
    destruct (height_loop_lines G ft width (S (length text)) text 0%Q)
      as (k & y' & Hk & Hlines & Hrun & Hy); [lia|].
    exists k. rewrite Hrun.
    split; [exact Hk|]. split; [exact Hlines|].
    split; f_equal.
    + apply int_of_double_comp. rewrite Hy. ring.
    + rewrite <- int_of_double_half. apply int_of_double_comp.
      rewrite Hy. unfold Qeq, Qminus, Qplus, Qmult, Qopp, inject_Z.
      cbn [Qnum Qden]. rewrite ?Pos2Z.inj_mul. ring.
Qed.

(** C3, as the specification states it: one line of a font of height 12
    does not measure 1.5 x 12 = 18. *)
Lemma gl_printHeightRaw_one_line :
  wrapped_lines G0 font10 100 (c_str "a") 1 /\
  gl_printHeightRaw G0 (Some font10) 100 (c_str "a") = Some 12 /\
  int_of_double ((3 # 2) * inject_Z (h font10) * inject_Z 1)%Q = 18 /\
  gl_printHeightRaw G0 (Some font10) 100 (c_str "a")
    <> Some (int_of_double ((3 # 2) * inject_Z (h font10) * inject_Z 1)%Q).
Proof.
  split; [apply lines_last; reflexivity|].
  split; [reflexivity|]. split; [reflexivity|].
  vm_compute. discriminate.
Qed.

(** ** The renderer step *)

(** C7: one step of the renderer.  On the escape marker it returns state 1
    (awaiting a directive) and issues no GL call, whatever the state was.
    In state 1 any other byte is consumed as a directive: 'r', 'g' and 'b'
    set the named colour with the caller's alpha, '0' resets to the
    caller's colour, any other byte changes nothing; nothing is drawn and
    the state returns to 0.  Otherwise the quad of the glyph is drawn, the
    matrix is translated by the advance of the glyph and the state stays
    0. *)
Theorem gl_fontRenderCharacter_step
    (G : Globals) (font : glFont) (ch : Z) (c : option glColour)
    (state : Z) (tr : list gl_call) :
  (ch = ESC ->
   gl_fontRenderCharacter G font ch c state tr = (1, tr)) /\
  (ch <> ESC -> state = 1 ->
   exists colour_calls,
     gl_fontRenderCharacter G font ch c state tr = (0, tr ++ colour_calls) /\
     (ch = CH_r -> colour_calls =
        [glColor4d (r (cRed G)) (g (cRed G)) (b (cRed G)) (caller_alpha c)]) /\
     (ch = CH_g -> colour_calls =
        [glColor4d (r (cGreen G)) (g (cGreen G)) (b (cGreen G))
                   (caller_alpha c)]) /\
     (ch = CH_b -> colour_calls =
        [glColor4d (r (cBlue G)) (g (cBlue G)) (b (cBlue G))
                   (caller_alpha c)]) /\
     (ch = CH_0 -> colour_calls = [caller_colour c]) /\
     (ch <> CH_r -> ch <> CH_g -> ch <> CH_b -> ch <> CH_0 ->
      colour_calls = [])) /\
  (ch <> ESC -> state <> 1 ->
   gl_fontRenderCharacter G font ch c state tr
     = (0, tr ++ [glDrawElements_TRIANGLES (glyph_quad ch);
                  gl_matrixTranslate (inject_Z (adv_x (chars font ch)))
                                     (inject_Z (adv_y (chars font ch)))])).
Proof.
  unfold gl_fontRenderCharacter. split; [|split].
  - intros ->. reflexivity.
  - intros Hesc ->.
    destruct (Z.eqb_spec ch ESC) as [|_]; [contradiction|].
    change (1 =? 1) with true. cbv iota.
    destruct (Z.eqb_spec ch CH_r) as [Hr|Hr];
      [|destruct (Z.eqb_spec ch CH_g) as [Hg|Hg];
        [|destruct (Z.eqb_spec ch CH_b) as [Hb|Hb];
          [|destruct (Z.eqb_spec ch CH_0) as [H0|H0]]]].
    + eexists. split; [reflexivity|]. subst ch.
      destruct c; repeat split; intros; try discriminate; try reflexivity;
        contradiction.
    + eexists. split; [reflexivity|]. subst ch.
      destruct c; repeat split; intros; try discriminate; try reflexivity;
        contradiction.
    + eexists. split; [reflexivity|]. subst ch.
      destruct c; repeat split; intros; try discriminate; try reflexivity;
        contradiction.
    + subst ch. destruct c; (eexists; split; [reflexivity|]);
        repeat split; intros; try discriminate; try reflexivity;
        contradiction.
    + exists []. split.
      * unfold gl_bind, gl_ret. rewrite app_nil_r. reflexivity.
      * repeat split; intros; try contradiction; reflexivity.
  - intros Hesc Hst.
    destruct (Z.eqb_spec ch ESC) as [|_]; [contradiction|].
    destruct (Z.eqb_spec state 1) as [|_]; [contradiction|].
    unfold gl_bind, call, gl_ret, glyph_quad. cbn [map].
    rewrite <- app_assoc. reflexivity.
Qed.

(** ** gl_printMaxRaw and gl_printMidRaw *)

(** Both drivers end in [return 0]. *)
Lemma gl_printMaxRaw_returns_0
    (G : Globals) (ft_font : option glFont) (max : Z) (x y : Q)
    (c : option glColour) (text : option cstring) (s0 : Z)
    (tr : list gl_call) :
  fst (gl_printMaxRaw G ft_font max x y c text s0 tr) = 0.
Proof.
  unfold gl_printMaxRaw, gl_bind.
  destruct (gl_fontRenderStart _ _ _ _ _ _) as [u tr1].
  destruct (render_loop _ _ _ _ _ _ _ _) as [s1 tr2].
  destruct (gl_fontRenderEnd _) as [u' tr3]. reflexivity.
Qed.

Lemma gl_printMidRaw_returns_0
    (G : Globals) (ft_font : option glFont) (width : Z) (x y : Q)
    (c : option glColour) (text : option cstring) (s0 n0 : Z)
    (tr : list gl_call) :
  fst (gl_printMidRaw G ft_font width x y c text s0 n0 tr) = 0.
Proof.
  unfold gl_printMidRaw, gl_bind.
  destruct (font_limitSize _ _ _ _) as [ret wr].
  destruct (gl_fontRenderStart _ _ _ _ _ _) as [u tr1].
  destruct (render_loop _ _ _ _ _ _ _ _) as [s1 tr2].
  destruct (gl_fontRenderEnd _) as [u' tr3]. reflexivity.
Qed.

(** C1: "abcde" in a font of advance 10 with a budget of 25 pixels.  Two
    characters fit and are drawn, three are suppressed, and both
    gl_printMaxRaw and gl_printMidRaw return 0. *)
Theorem gl_printMax_Mid_return_0_with_3_suppressed :
  fst (font_limitSize font10 None (Some (c_str "abcde")) 25) = 2 /\
  strlen (c_str "abcde")
    - fst (font_limitSize font10 None (Some (c_str "abcde")) 25) = 3 /\
  fst (gl_printMaxRaw G0 (Some font10) 25 0 0 None
         (Some (c_str "abcde")) 0 []) = 0 /\
  fst (gl_printMidRaw G0 (Some font10) 25 0 0 None
         (Some (c_str "abcde")) 0 0 []) = 0.
Proof.
  repeat split; vm_compute; reflexivity.
Qed.

(** ** Escape sequences in the width routines *)

(** After an escape marker and its directive gl_printWidthRaw skips one
    more character: the branch adds 2 to the index and the for statement
    adds 1. *)
Lemma gl_printWidthRaw_escape_skips_three
    (G : Globals) (ft_font : option glFont) (d x : Z) (rest : cstring) :
  d <> NUL -> x <> NUL ->
  gl_printWidthRaw G ft_font (ESC :: d :: x :: rest)
    = gl_printWidthRaw G ft_font rest.
Proof.
  intros Hd Hx. unfold gl_printWidthRaw. cbn [width_loop].
  change (ESC =? NUL) with false. change (ESC =? ESC) with true. cbv iota.
  destruct (Z.eqb_spec d NUL) as [|_]; [contradiction|].
  destruct (Z.eqb_spec x NUL) as [|_]; [contradiction|].
  reflexivity.
Qed.

(** font_limitSize has no escape branch: the marker and the directive are
    counted with the advances of their glyphs. *)
Lemma font_limitSize_counts_escape
    (ft : glFont) (d : Z) (max : Z) :
  d <> NUL ->
  char_adv ft ESC + char_adv ft d <= max ->
  char_adv ft ESC <= max ->
  font_limitSize ft (Some 0) (Some [ESC; d]) max
    = (2, Some (char_adv ft ESC + char_adv ft d)).
Proof.
  intros Hd Hfit2 Hfit1. unfold font_limitSize. cbn [limit_loop].
  change (ESC =? NUL) with false. cbv iota.
  destruct (Z.eqb_spec d NUL) as [|_]; [contradiction|].
  destruct (Z.gtb_spec (0 + char_adv ft ESC) max) as [Hgt|_]; [lia|].
  destruct (Z.gtb_spec (0 + char_adv ft ESC + char_adv ft d) max) as [Hgt|_];
    [lia|].
  reflexivity.
Qed.

(** C2: the escape marker, 'r' and "ab" in a font of advance 10.
    gl_printWidthRaw gives 10 where "ab" alone measures 20, because 'a' is
    skipped with the sequence; font_limitSize counts the marker and the
    directive, 40 against 20. *)
Theorem escape_sequence_changes_widths :
  gl_printWidthRaw G0 (Some font10) (ESC :: c_str "rab") = 10 /\
  gl_printWidthRaw G0 (Some font10) (c_str "ab") = 20 /\
  font_limitSize font10 (Some 0) (Some (ESC :: c_str "rab")) 1000
    = (4, Some 40) /\
  font_limitSize font10 (Some 0) (Some (c_str "ab")) 1000 = (2, Some 20).
Proof.
  repeat split; vm_compute; reflexivity.
Qed.

(** ** Bytes outside the glyph table *)

Section AnyByte.

Variable ft : glFont.






End AnyByte.




(** ** The atlas estimate *)

Lemma ceil_div_bounds (n d : Z) :
  0 < d -> (Atlas.ceil_div n d - 1) * d < n <= Atlas.ceil_div n d * d.
Proof.
  intros Hd. unfold Atlas.ceil_div.
  pose proof (Z.div_mod (n + d - 1) d ltac:(lia)) as Hdm.
  pose proof (Z.mod_pos_bound (n + d - 1) d Hd) as Hmod.
  nia.
Qed.

(** [rows_estimate] is the ceiling of the square root of the ratio: the
    least [n >= 0] whose square times [max_h] reaches [total_w]. *)
Lemma rows_estimate_spec (tw mh : Z) :
  0 <= tw -> 0 < mh ->
  let n := Atlas.rows_estimate tw mh in
  0 <= n /\ tw <= n * n * mh /\ (0 < n -> (n - 1) * (n - 1) * mh < tw).
Proof.
  intros Htw Hmh n. unfold Atlas.rows_estimate in n.
  pose proof (ceil_div_bounds tw mh Hmh) as [Hlo Hhi].
  set (q := Atlas.ceil_div tw mh) in *.
  destruct (Z.eq_dec q 0) as [Hq0|Hq0].
  - subst n. rewrite Hq0. change (Z.sqrt_up 0) with 0. lia.
  - assert (Hq : 0 < q) by nia.
    pose proof (Z.sqrt_up_spec q Hq) as [Hs1 Hs2]. fold n in Hs1, Hs2.
    pose proof (Z.sqrt_up_nonneg q) as Hn. fold n in Hn.
    unfold Z.pred in Hs1.
    split; [exact Hn|]. split; [nia|]. intros _. nia.
Qed.

(** On ints [ceil( total_w / n )] is the truncated quotient: the width the
    code computes is below the rounded-up share whenever [n] does not
    divide [total_w]. *)
Lemma estimate_width_below_spec (tw n : Z) :
  0 <= tw -> 0 < n -> tw mod n <> 0 ->
  Z.quot tw n + 1 < Atlas.spec_width tw n.
Proof.
  intros Htw Hn Hrem. unfold Atlas.spec_width.
  rewrite Z.quot_div_nonneg by lia.
  pose proof (ceil_div_bounds tw n Hn) as [Hlo Hhi].
  pose proof (Z.div_mod tw n ltac:(lia)) as Hdm.
  pose proof (Z.mod_pos_bound tw n Hn) as Hmod.
  nia.
Qed.

(** C8: 128 glyphs, each 5 wide and 9 high.  The total width is 640 and
    the estimate is 9 rows; the code sets the width to 640 / 9 + 1 = 72
    with the quotient of two ints, where the rounded-up share of 640 over
    9 rows plus one is 73.  The height estimate is 9 * 9 + 1 = 82, which
    the test fit then grows to 91. *)
Theorem atlas_width_uses_integer_division :
  Atlas.total_w (Atlas.measure glyphs_5x9) = 640 /\
  Atlas.max_h (Atlas.measure glyphs_5x9) = 9 /\
  Atlas.estimate (Atlas.measure glyphs_5x9) = (9, 72, 82) /\
  Atlas.spec_width 640 9 = 73 /\
  Atlas.atlas_size G0 glyphs_5x9 = (72, 91).
Proof.
  repeat split; vm_compute; reflexivity.
Qed.

(** * Further properties of font.c *)

(** ** font_limitSize, for every font *)

(** X1: The count font_limitSize returns lies within the string, the width it
    stores is the width of exactly that many characters, whatever the
    advances are, and as soon as one character is taken that width is
    within the budget. *)
Theorem font_limitSize_within_string
    (ft : glFont) (w0 : Z) (text : cstring) (max : Z) :
  exists count n : Z,
    font_limitSize ft (Some w0) (Some text) max = (count, Some n) /\
    font_limitSize ft None (Some text) max = (count, None) /\
    0 <= count <= strlen text /\
    n = adv_sum ft (prefix text count) /\
    (1 <= count -> n <= max) /\
    (count = 0 -> n = 0).
Proof.
  destruct (limit_loop_spec ft text max 0 0) as (k & Hk & Heq & Hfits & _).
  exists (Z.of_nat k), (adv_sum ft (firstn k (str_chars text))).
  unfold font_limitSize, strlen, prefix. rewrite Heq. cbn [Z.add].
  rewrite Nat2Z.id.
  split; [reflexivity|]. split; [reflexivity|].
  split; [lia|]. split; [reflexivity|]. split.
  - intros Hc. specialize (Hfits k ltac:(lia)). lia.
  - intros Hc. assert (k = 0%nat) by lia. subst k. reflexivity.
Qed.

Lemma firstn_length_all (l : list Z) : firstn (length l) l = l.
Proof.
  induction l as [|c l IH]; [reflexivity|]. simpl. rewrite IH. reflexivity.
Qed.

(** X2: With advances that are not negative and a budget that is not negative,
    font_limitSize keeps the whole text exactly when the whole text fits. *)
Theorem font_limitSize_keeps_all_iff_fits
    (ft : glFont) (width : option Z) (text : cstring) (max : Z) :
  (forall ch, In ch (str_chars text) -> 0 <= char_adv ft ch) ->
  0 <= max ->
  (fst (font_limitSize ft width (Some text) max) = strlen text
   <-> adv_sum ft (str_chars text) <= max).
Proof.
  intros Hpos Hmax.
  destruct (limit_loop_spec ft text max 0 0) as (k & Hk & Heq & Hfits & Hnext).
  unfold font_limitSize, strlen. rewrite Heq. cbn [fst Z.add]. split.
  - intros Hall. assert (Hkl : k = length (str_chars text)) by lia.
    destruct k as [|k].
    + destruct (str_chars text); [simpl; lia | discriminate Hkl].
    + specialize (Hfits (S k) ltac:(lia)).
      rewrite Hkl, firstn_length_all in Hfits. lia.
  - intros Hfit.
    destruct (Nat.eq_dec k (length (str_chars text))) as [->|Hne];
      [reflexivity|].
    assert (Hlt : (k < length (str_chars text))%nat) by lia.
    specialize (Hnext Hlt).
    pose proof (adv_sum_firstn_mono ft (str_chars text) (S k)
                  (length (str_chars text)) Hpos ltac:(lia)) as Hmono.
    rewrite firstn_length_all in Hmono. lia.
Qed.

Lemma font_limitSize_keeps_all_iff_fits_witness :
  (forall ch, In ch (str_chars (c_str "abc")) -> 0 <= char_adv font10 ch) /\
  0 <= 30 /\
  (fst (font_limitSize font10 None (Some (c_str "abc")) 30)
     = strlen (c_str "abc")
   <-> adv_sum font10 (str_chars (c_str "abc")) <= 30).
Proof.
  split; [intros ch _; apply font10_advances|].
  split; [lia|].
  apply (font_limitSize_keeps_all_iff_fits font10 None (c_str "abc") 30).
  - intros ch _; apply font10_advances.
  - lia.
Defined.

(** ** gl_printWidthForText: where a line can break *)

Section WrapBounds.

Variable ft : glFont.

Lemma wft_loop_cons (c : Z) (rest : cstring) (width i n ls : Z) :
  wft_loop ft (c :: rest) width i n ls =
  if (c =? NEWLINE) || (c =? NUL) then i
  else if c =? TAB then wft_loop ft rest width (i + 1) n ls
  else if c =? ESC then
    match rest with
    | [] => wft_loop ft rest width (i + 1) n ls
    | d :: rest' =>
        if d =? NUL then wft_loop ft rest width (i + 1) n ls
        else wft_loop ft rest' width (i + 2) n ls
    end
  else
    if n + char_adv ft c >? width then (if c =? SPACE then i else ls)
    else wft_loop ft rest width (i + 1) (n + char_adv ft c)
           (if c =? SPACE then i else ls).
Proof. reflexivity. Qed.

Lemma wft_loop_at_nul (rest : cstring) (width i n ls : Z) :
  wft_loop ft (NUL :: rest) width i n ls = i.
Proof. reflexivity. Qed.

Lemma strlen_cons (c : Z) (rest : cstring) :
  c <> NUL -> strlen (c :: rest) = 1 + strlen rest.
Proof.
  intros Hc. unfold strlen. cbn [str_chars].
  destruct (Z.eqb_spec c NUL) as [|_]; [contradiction|].
  cbn [length]. lia.
Qed.

Lemma strlen_nonneg (text : cstring) : 0 <= strlen text.
Proof. unfold strlen. lia. Qed.

(** The loop returns an index between [lastspace] and the end of the
    string. *)
Lemma wft_loop_bounds (text : cstring) (width : Z) :
  forall i n ls,
    ls <= i ->
    ls <= wft_loop ft text width i n ls <= i + strlen text.
Proof.
  induction text as [|c|c d rest IH1 IH2] using cstring_ind2;
    intros i n ls Hls.
  - simpl. unfold strlen. simpl. lia.
  - rewrite wft_loop_cons. pose proof (strlen_nonneg [c]) as Hlen.
    destruct (Z.eqb_spec c NEWLINE) as [Hn|Hn];
      [|destruct (Z.eqb_spec c NUL) as [Hz|Hz]]; cbn [orb]; try lia.
    rewrite (strlen_cons c [] Hz). change (strlen []) with 0.
    cbn [wft_loop].
    destruct (c =? TAB); [lia|]. destruct (c =? ESC); [lia|].
    destruct (n + char_adv ft c >? width); destruct (c =? SPACE); lia.
  - rewrite wft_loop_cons. pose proof (strlen_nonneg (c :: d :: rest)) as Hlen.
    destruct (Z.eqb_spec c NEWLINE) as [Hn|Hn];
      [|destruct (Z.eqb_spec c NUL) as [Hz|Hz]]; cbn [orb]; try lia.
    rewrite (strlen_cons c (d :: rest) Hz).
    destruct (c =? TAB).
    { specialize (IH2 (i + 1) n ls ltac:(lia)). lia. }
    destruct (c =? ESC).
    { destruct (Z.eqb_spec d NUL) as [Hd|Hd].
      - subst d. rewrite wft_loop_at_nul.
        pose proof (strlen_nonneg (NUL :: rest)). lia.
      - specialize (IH1 (i + 2) n ls ltac:(lia)).
        rewrite (strlen_cons d rest Hd). lia. }
    destruct (n + char_adv ft c >? width).
    { destruct (c =? SPACE); pose proof (strlen_nonneg (d :: rest)); lia. }
    destruct (c =? SPACE).
    + specialize (IH2 (i + 1) (n + char_adv ft c) i ltac:(lia)). lia.
    + specialize (IH2 (i + 1) (n + char_adv ft c) ls ltac:(lia)). lia.
Qed.

(** A larger width never moves the break to the left. *)
Lemma wft_loop_mono (text : cstring) (W1 W2 : Z) :
  W1 <= W2 ->
  forall i n ls1 ls2,
    ls1 <= ls2 -> ls2 <= i ->
    wft_loop ft text W1 i n ls1 <= wft_loop ft text W2 i n ls2.
Proof.
  intros HW.
  induction text as [|c|c d rest IH1 IH2] using cstring_ind2;
    intros i n ls1 ls2 Hl1 Hl2.
  - simpl. lia.
  - rewrite !wft_loop_cons. cbn [wft_loop].
    destruct ((c =? NEWLINE) || (c =? NUL)); [lia|].
    destruct (c =? TAB); [lia|]. destruct (c =? ESC); [lia|].
    destruct (Z.gtb_spec (n + char_adv ft c) W1);
      destruct (Z.gtb_spec (n + char_adv ft c) W2);
      destruct (c =? SPACE); lia.
  - rewrite !(wft_loop_cons c).
    destruct ((c =? NEWLINE) || (c =? NUL)); [lia|].
    destruct (c =? TAB); [apply IH2; lia|].
    destruct (c =? ESC).
    { destruct (Z.eqb_spec d NUL) as [Hd|Hd].
      - subst d. rewrite !wft_loop_at_nul. lia.
      - apply IH1; lia. }
    destruct (Z.gtb_spec (n + char_adv ft c) W1) as [H1|H1];
      destruct (Z.gtb_spec (n + char_adv ft c) W2) as [H2|H2].
    + destruct (c =? SPACE); lia.
    + destruct (c =? SPACE).
      * pose proof (wft_loop_bounds (d :: rest) W2 (i + 1)
                      (n + char_adv ft c) i ltac:(lia)). lia.
      * pose proof (wft_loop_bounds (d :: rest) W2 (i + 1)
                      (n + char_adv ft c) ls2 ltac:(lia)). lia.
    + lia.
    + destruct (c =? SPACE); apply IH2; lia.
Qed.

End WrapBounds.

(** X3: The break index gl_printWidthForText returns lies within the string:
    the caller may read [text[ret]] and draw the [ret] characters before
    it. *)
Theorem gl_printWidthForText_within_string
    (G : Globals) (ft_font : option glFont) (text : cstring) (width : Z) :
  0 <= gl_printWidthForText G ft_font text width <= strlen text.
Proof.
  unfold gl_printWidthForText.
  pose proof (wft_loop_bounds (font_or_default G ft_font) text width 0 0 0
                ltac:(lia)).
  lia.
Qed.

(** X4: The break index gl_printWidthForText returns does not decrease when
    the width grows. *)
Theorem gl_printWidthForText_monotonic
    (G : Globals) (ft_font : option glFont) (text : cstring) (W1 W2 : Z) :
  W1 <= W2 ->
  gl_printWidthForText G ft_font text W1
    <= gl_printWidthForText G ft_font text W2.
Proof.
  intros HW. unfold gl_printWidthForText.
  apply wft_loop_mono; [exact HW | lia | lia].
Qed.

Lemma gl_printWidthForText_monotonic_witness :
  25 <= 35 /\
  gl_printWidthForText G0 None (c_str "abc def") 25
    <= gl_printWidthForText G0 None (c_str "abc def") 35.
Proof.
  split; [lia|].
  apply (gl_printWidthForText_monotonic G0 None (c_str "abc def") 25 35).
  lia.
Defined.

Section WrapLine.

Variable ft : glFont.
Variable width : Z.

Lemma overflow_prefix_incl (l : list (Z * Z)) :
  forall n seen,
    overflow_prefix ft width n l = Some seen ->
    forall p, In p seen -> In p l.
Proof.
  induction l as [|[i ch] rest IH]; intros n seen Hov p Hp; [discriminate|].
  cbn [overflow_prefix] in Hov.
  destruct (n + char_adv ft ch >? width).
  - inversion Hov; subst. destruct Hp as [<-|[]]. left. reflexivity.
  - destruct (overflow_prefix ft width (n + char_adv ft ch) rest)
      as [seen'|] eqn:Hrest; [|discriminate].
    inversion Hov; subst. destruct Hp as [<-|Hp]; [left; reflexivity|].
    right. eapply IH; eassumption.
Qed.

Lemma last_space_cases (l : list (Z * Z)) :
  forall dflt,
    last_space dflt l = dflt \/
    exists i, In (i, SPACE) l /\ last_space dflt l = i.
Proof.
  induction l as [|[i ch] rest IH]; intros dflt; [left; reflexivity|].
  rewrite last_space_cons.
  destruct (Z.eqb_spec ch SPACE) as [Hs|Hs].
  - subst ch. destruct (IH i) as [Heq|(j & Hin & Heq)].
    + right. exists i. split; [left; reflexivity | exact Heq].
    + right. exists j. split; [right; exact Hin | exact Heq].
  - destruct (IH dflt) as [Heq|(j & Hin & Heq)].
    + left. exact Heq.
    + right. exists j. split; [right; exact Hin | exact Heq].
Qed.

Lemma scan_cons (c : Z) (rest : cstring) (i : Z) :
  scan (c :: rest) i =
  if (c =? NEWLINE) || (c =? NUL) then []
  else if c =? TAB then scan rest (i + 1)
  else if c =? ESC then
    match rest with
    | [] => []
    | d :: rest' => if d =? NUL then [] else scan rest' (i + 2)
    end
  else (i, c) :: scan rest (i + 1).
Proof. reflexivity. Qed.

(** Nothing is counted before the index the scan starts at. *)
Lemma counted_before_start (text : cstring) (i ret : Z) :
  ret <= i -> counted_before ret (scan text i) = [].
Proof.
  intros Hret. unfold counted_before.
  assert (Hall : forall p, In p (scan text i) -> (fst p <? ret) = false).
  { intros [j ch] Hin. destruct (scan_counted text i j ch Hin) as (Hle & _).
    apply Z.ltb_ge. simpl. lia. }
  induction (scan text i) as [|p l IH]; [reflexivity|].
  simpl. rewrite (Hall p (or_introl eq_refl)).
  apply IH. intros q Hq. apply Hall. right. exact Hq.
Qed.

(** The loop invariant behind the wrapped line: from a state whose width
    [n] is within the budget, the index returned is the old [lastspace] or
    an index from [i] on, and in the second case the characters counted
    before it, added to [n], are within the budget. *)
Lemma wft_loop_line_fits (text : cstring) :
  forall i n ls,
    n <= width -> ls <= i ->
    let ret := wft_loop ft text width i n ls in
    (ret = ls \/ i <= ret) /\
    (i <= ret ->
     n + line_width ft (counted_before ret (scan text i)) <= width).
Proof.
  induction text as [|c|c d rest IH1 IH2] using cstring_ind2;
    intros i n ls Hn Hls ret.
  - subst ret. simpl. split; [right; lia|]. intros _.
    unfold line_width. simpl. lia.
  - subst ret. rewrite wft_loop_cons, scan_cons. cbn [wft_loop scan].
    destruct ((c =? NEWLINE) || (c =? NUL));
      [split; [right; lia | intros _; unfold line_width; simpl; lia]|].
    destruct (c =? TAB);
      [split; [right; lia | intros _; unfold line_width; simpl; lia]|].
    destruct (c =? ESC);
      [split; [right; lia | intros _; unfold line_width; simpl; lia]|].
    destruct (Z.gtb_spec (n + char_adv ft c) width) as [Hov|Hfit].
    + destruct (c =? SPACE).
      * split; [right; lia|]. intros _. unfold counted_before. cbn [filter fst].
        rewrite Z.ltb_irrefl. unfold line_width. simpl. lia.
      * split; [left; reflexivity|]. intros Hi.
        assert (ls = i) by lia. subst ls.
        unfold counted_before. cbn [filter fst].
        rewrite Z.ltb_irrefl. unfold line_width. simpl. lia.
    + split; [right; lia|]. intros _. unfold counted_before. cbn [filter fst].
      destruct (Z.ltb_spec i (i + 1)); [|lia].
      unfold line_width. simpl. lia.
  - subst ret. rewrite wft_loop_cons, scan_cons.
    destruct ((c =? NEWLINE) || (c =? NUL));
      [split; [right; lia | intros _; unfold line_width; simpl; lia]|].
    destruct (c =? TAB).
    { destruct (IH2 (i + 1) n ls Hn ltac:(lia)) as (Hcase & Hbound).
      split; [destruct Hcase; [left; assumption | right; lia]|].
      intros Hi.
      destruct (Z.le_gt_cases (i + 1)
                  (wft_loop ft (d :: rest) width (i + 1) n ls)) as [Hge|Hlt].
      - apply Hbound. exact Hge.
      - rewrite counted_before_start by lia. unfold line_width. simpl. lia. }
    destruct (c =? ESC).
    { destruct (Z.eqb_spec d NUL) as [Hd|Hd].
      - subst d. rewrite wft_loop_at_nul.
        split; [right; lia | intros _; unfold line_width; simpl; lia].
      - destruct (IH1 (i + 2) n ls Hn ltac:(lia)) as (Hcase & Hbound).
        split; [destruct Hcase; [left; assumption | right; lia]|].
        intros Hi.
        destruct (Z.le_gt_cases (i + 2)
                    (wft_loop ft rest width (i + 2) n ls)) as [Hge|Hlt].
        + apply Hbound. exact Hge.
        + rewrite counted_before_start by lia.
          unfold line_width. simpl. lia. }
    destruct (Z.gtb_spec (n + char_adv ft c) width) as [Hov|Hfit].
    + assert (Hnil : counted_before i ((i, c) :: scan (d :: rest) (i + 1)) = []).
      { unfold counted_before. cbn [filter fst]. rewrite Z.ltb_irrefl.
        apply counted_before_start. lia. }
      destruct (c =? SPACE).
      * split; [right; lia|]. intros _. rewrite Hnil.
        unfold line_width. simpl. lia.
      * split; [left; reflexivity|]. intros Hi.
        assert (ls = i) by lia. subst ls. rewrite Hnil.
        unfold line_width. simpl. lia.
    + set (ls1 := if c =? SPACE then i else ls).
      assert (Hls1 : ls1 <= i + 1) by (unfold ls1; destruct (c =? SPACE); lia).
      assert (Hls1' : ls1 = ls \/ ls1 = i)
        by (unfold ls1; destruct (c =? SPACE); [right | left]; reflexivity).
      destruct (IH2 (i + 1) (n + char_adv ft c) ls1 Hfit Hls1)
        as (Hcase & Hbound).
      set (ret := wft_loop ft (d :: rest) width (i + 1)
                    (n + char_adv ft c) ls1) in *.
      split; [destruct Hcase as [Hc|Hc];
              [destruct Hls1' as [Hl|Hl]; [left | right]; lia | right; lia]|].
      intros Hi.
      destruct (Z.le_gt_cases (i + 1) ret) as [Hge|Hlt].
      * specialize (Hbound Hge).
        unfold counted_before in *. cbn [filter fst].
        destruct (Z.ltb_spec i ret); [|lia].
        unfold line_width in *. cbn [map snd adv_sum]. lia.
      * assert (ret = i) by lia.
        unfold counted_before. cbn [filter fst].
        destruct (Z.ltb_spec i ret); [lia|].
        fold (counted_before ret (scan (d :: rest) (i + 1))).
        rewrite counted_before_start by lia.
        unfold line_width. simpl. lia.
Qed.

End WrapLine.

(** X5: Where gl_printWidthForText breaks a line: at index 0, or at a space, a
    newline or the terminator. *)
Theorem gl_printWidthForText_breaks_at_whitespace
    (G : Globals) (ft_font : option glFont) (text : cstring) (width : Z) :
  let ret := gl_printWidthForText G ft_font text width in
  ret = 0 \/
  text_at text ret = SPACE \/
  text_at text ret = NEWLINE \/
  text_at text ret = NUL.
Proof.
  intros ret. unfold ret, gl_printWidthForText.
  rewrite wft_loop_wrap_spec. unfold wrap_spec.
  destruct (overflow_prefix (font_or_default G ft_font) width 0 (scan text 0))
    as [seen|] eqn:Hov.
  - destruct (last_space_cases seen 0) as [H0|(i & Hin & Hi)].
    + left. exact H0.
    + right. left. rewrite Hi.
      pose proof (overflow_prefix_incl _ _ _ _ _ Hov _ Hin) as Hscan.
      destruct (scan_counted text 0 i SPACE Hscan) as (Hle & Hnth & _).
      rewrite text_at_nth by lia. exact Hnth.
  - right. right.
    destruct (scan_end_stops text 0) as (Hle & Hstop).
    rewrite text_at_nth by lia. exact Hstop.
Qed.

(** X6: The line gl_printWidthForText cuts off fits: for a width that is not
    negative, the advances of the characters it counts before the break
    index add up to at most the width, whatever the font. *)
Theorem gl_printWidthForText_line_fits
    (G : Globals) (ft_font : option glFont) (text : cstring) (width : Z) :
  0 <= width ->
  line_width (font_or_default G ft_font)
    (counted_before (gl_printWidthForText G ft_font text width)
       (scan text 0))
    <= width.
Proof.
  intros Hw. unfold gl_printWidthForText.
  destruct (wft_loop_line_fits (font_or_default G ft_font) width text 0 0 0
              Hw ltac:(lia)) as (_ & Hbound).
  pose proof (wft_loop_bounds (font_or_default G ft_font) text width 0 0 0
                ltac:(lia)) as Hb.
  specialize (Hbound ltac:(lia)). lia.
Qed.

Lemma gl_printWidthForText_line_fits_witness :
  0 <= 35 /\
  line_width (font_or_default G0 None)
    (counted_before (gl_printWidthForText G0 None (c_str "abc def") 35)
       (scan (c_str "abc def") 0))
    <= 35.
Proof.
  split; [lia|].
  apply (gl_printWidthForText_line_fits G0 None (c_str "abc def") 35). lia.
Defined.

(** ** The renderer and its drivers *)

Lemma appends_ret {A : Type} (x : A) : appends (gl_ret x).
Proof. intros tr. unfold gl_ret. simpl. rewrite app_nil_r. reflexivity. Qed.

Lemma appends_call (c : gl_call) : appends (call c).
Proof. intros tr. reflexivity. Qed.

Lemma appends_bind {A B : Type} (m : GL A) (k : A -> GL B) :
  appends m -> (forall x, appends (k x)) -> appends (gl_bind m k).
Proof.
  intros Hm Hk tr. unfold gl_bind.
  rewrite (Hm tr). destruct (m []) as [x tr1] eqn:Hm0. cbn [fst snd].
  rewrite (Hk x (tr ++ tr1)), (Hk x tr1).
  destruct (k x []) as [y tr2]. cbn [fst snd].
  rewrite app_assoc. reflexivity.
Qed.

(** What a bind leaves in the trace, for computations that append. *)
Lemma bind_trace {A B : Type} (m : GL A) (k : A -> GL B) :
  appends m -> (forall x, appends (k x)) ->
  forall tr,
    gl_bind m k tr
      = (fst (k (fst (m [])) []),
         tr ++ snd (m []) ++ snd (k (fst (m [])) [])).
Proof.
  intros Hm Hk tr. unfold gl_bind.
  rewrite (Hm tr). destruct (m []) as [x tr1]. cbn [fst snd].
  rewrite (Hk x (tr ++ tr1)). rewrite <- app_assoc. reflexivity.
Qed.

Lemma appends_COLOUR (c : glColour) : appends (COLOUR c).
Proof. apply appends_call. Qed.

Lemma appends_ACOLOUR (c : glColour) (alpha : Q) : appends (ACOLOUR c alpha).
Proof. apply appends_call. Qed.

Lemma appends_gl_fontRenderStart (G : Globals) (ft : glFont) (x y : Q)
    (c : option glColour) :
  appends (gl_fontRenderStart G ft x y c).
Proof.
  unfold gl_fontRenderStart.
  repeat (apply appends_bind; [|intros _]);
    try apply appends_call.
  destruct c; [apply appends_COLOUR | apply appends_call].
Qed.

Lemma appends_gl_fontRenderEnd : appends gl_fontRenderEnd.
Proof.
  unfold gl_fontRenderEnd.
  repeat (apply appends_bind; [|intros _]); apply appends_call.
Qed.

Lemma appends_gl_fontRenderCharacter (G : Globals) (ft : glFont) (ch : Z)
    (c : option glColour) (s : Z) :
  appends (gl_fontRenderCharacter G ft ch c s).
Proof.
  unfold gl_fontRenderCharacter.
  destruct (ch =? ESC); [apply appends_ret|].
  destruct (s =? 1).
  - apply appends_bind; [|intros _; apply appends_ret].
    destruct (ch =? CH_r); [apply appends_ACOLOUR|].
    destruct (ch =? CH_g); [apply appends_ACOLOUR|].
    destruct (ch =? CH_b); [apply appends_ACOLOUR|].
    destruct (ch =? CH_0); [|apply appends_ret].
    destruct c; [apply appends_COLOUR | apply appends_call].
  - repeat (apply appends_bind; [|intros _]);
      try apply appends_call. apply appends_ret.
Qed.

Lemma appends_render_loop (G : Globals) (ft : glFont) (c : option glColour)
    (text : cstring) (ret : Z) :
  forall i s, appends (render_loop G ft c text i ret s).
Proof.
  induction text as [|ch rest IH]; intros i s; cbn [render_loop].
  - apply appends_ret.
  - destruct (i <? ret); [|apply appends_ret].
    apply appends_bind; [apply appends_gl_fontRenderCharacter|].
    intros s1. apply IH.
Qed.

Lemma appends_render_all (G : Globals) (ft : glFont) (c : option glColour)
    (text : cstring) :
  forall s, appends (render_all G ft c text s).
Proof.
  induction text as [|ch rest IH]; intros s; cbn [render_all].
  - apply appends_ret.
  - destruct (ch =? NUL); [apply appends_ret|].
    apply appends_bind; [apply appends_gl_fontRenderCharacter|].
    intros s1. apply IH.
Qed.

Lemma pen_dx_app (tr1 tr2 : list gl_call) :
  (pen_dx (tr1 ++ tr2) == pen_dx tr1 + pen_dx tr2)%Q.
Proof.
  induction tr1 as [|c tr1 IH]; simpl.
  - ring.
  - rewrite IH. ring.
Qed.

Lemma quads_app (tr1 tr2 : list gl_call) :
  quads (tr1 ++ tr2) = quads tr1 ++ quads tr2.
Proof.
  induction tr1 as [|c tr1 IH]; [reflexivity|].
  destruct c; simpl; rewrite IH; reflexivity.
Qed.

Lemma pushes_app (tr1 tr2 : list gl_call) :
  pushes (tr1 ++ tr2) = (pushes tr1 + pushes tr2)%nat.
Proof. unfold pushes. rewrite filter_app, length_app. reflexivity. Qed.

Lemma pops_app (tr1 tr2 : list gl_call) :
  pops (tr1 ++ tr2) = (pops tr1 + pops tr2)%nat.
Proof. unfold pops. rewrite filter_app, length_app. reflexivity. Qed.

(** The trace of gl_fontRenderStart: five calls, the translation to the
    rounded position, the colour, two activations. *)
Lemma gl_fontRenderStart_trace (G : Globals) (ft : glFont) (x y : Q)
    (c : option glColour) :
  snd (gl_fontRenderStart G ft x y c []) =
  [ glEnable_TEXTURE_2D; glBindTexture (texture ft);
    gl_matrixMode_MODELVIEW; gl_matrixPush;
    gl_matrixTranslate
      (inject_Z (c_round (dsub x (inject_Z (SCREEN_W G) / 2))))
      (inject_Z (c_round (dsub y (inject_Z (SCREEN_H G) / 2))));
    caller_colour c;
    gl_vboActivateOffset_TEXTURE_COORD (vbo ft) 0;
    gl_vboActivateOffset_VERTEX (vbo ft) (128 * 8 * 4) ].
Proof. destruct c; reflexivity. Qed.

Lemma gl_fontRenderEnd_trace :
  snd (gl_fontRenderEnd []) =
  [ gl_vboDeactivate; gl_matrixPop; glDisable_TEXTURE_2D; gl_checkErr ].
Proof. reflexivity. Qed.

(** The renderer step issues glyph calls only. *)
Lemma gl_fontRenderCharacter_calls (G : Globals) (ft : glFont) (ch : Z)
    (c : option glColour) (s : Z) :
  forallb is_glyph_call (snd (gl_fontRenderCharacter G ft ch c s [])) = true.
Proof.
  unfold gl_fontRenderCharacter.
  destruct (ch =? ESC); [reflexivity|].
  destruct (s =? 1).
  - destruct (ch =? CH_r); [reflexivity|].
    destruct (ch =? CH_g); [reflexivity|].
    destruct (ch =? CH_b); [reflexivity|].
    destruct (ch =? CH_0); [|reflexivity].
    destruct c; reflexivity.
  - reflexivity.
Qed.

Lemma render_loop_calls (G : Globals) (ft : glFont) (c : option glColour)
    (text : cstring) (ret : Z) :
  forall i s,
    forallb is_glyph_call (snd (render_loop G ft c text i ret s [])) = true.
Proof.
  induction text as [|ch rest IH]; intros i s; cbn [render_loop];
    [reflexivity|].
  destruct (i <? ret); [|reflexivity].
  rewrite (bind_trace _ _ (appends_gl_fontRenderCharacter G ft ch c s)
             (fun s1 => appends_render_loop G ft c rest ret (i + 1) s1)).
  cbn [snd app]. rewrite forallb_app, gl_fontRenderCharacter_calls, IH.
  reflexivity.
Qed.

Lemma render_all_calls (G : Globals) (ft : glFont) (c : option glColour)
    (text : cstring) :
  forall s,
    forallb is_glyph_call (snd (render_all G ft c text s [])) = true.
Proof.
  induction text as [|ch rest IH]; intros s; cbn [render_all];
    [reflexivity|].
  destruct (ch =? NUL); [reflexivity|].
  rewrite (bind_trace _ _ (appends_gl_fontRenderCharacter G ft ch c s)
             (fun s1 => appends_render_all G ft c rest s1)).
  cbn [snd app]. rewrite forallb_app, gl_fontRenderCharacter_calls, IH.
  reflexivity.
Qed.

Lemma glyph_calls_no_push (tr : list gl_call) :
  forallb is_glyph_call tr = true -> pushes tr = 0%nat /\ pops tr = 0%nat.
Proof.
  unfold pushes, pops.
  induction tr as [|c tr IH]; intros Hall; [split; reflexivity|].
  simpl in Hall. apply andb_prop in Hall. destruct Hall as [Hc Htr].
  destruct (IH Htr) as [Hpu Hpo].
  destruct c; try discriminate; simpl; split; assumption.
Qed.

Section Drivers.

Variable G : Globals.
Variable ft : glFont.
Variable c : option glColour.

(** Outside an escape sequence a character other than the marker is
    drawn and the matrix moves by its advance. *)
Lemma render_char_normal (ch s : Z) :
  ch <> ESC -> s <> 1 ->
  gl_fontRenderCharacter G ft ch c s []
    = (0, [glDrawElements_TRIANGLES (glyph_quad ch);
           gl_matrixTranslate (inject_Z (adv_x (chars ft ch)))
                              (inject_Z (adv_y (chars ft ch)))]).
Proof.
  intros Hch Hs. unfold gl_fontRenderCharacter.
  destruct (Z.eqb_spec ch ESC) as [|_]; [contradiction|].
  destruct (Z.eqb_spec s 1) as [|_]; [contradiction|].
  reflexivity.
Qed.

(** Whatever the state, a step moves the matrix by nothing or by the
    advance of the character, and draws at most one quad. *)
Lemma render_char_advance (ch s : Z) :
  exists d,
    (pen_dx (snd (gl_fontRenderCharacter G ft ch c s [])) == inject_Z d)%Q /\
    (d = 0 \/ d = char_adv ft ch) /\
    (length (quads (snd (gl_fontRenderCharacter G ft ch c s []))) <= 1)%nat.
Proof.
  unfold gl_fontRenderCharacter.
  destruct (ch =? ESC).
  { exists 0. simpl. split; [reflexivity | split; [left; reflexivity | lia]]. }
  destruct (s =? 1).
  - exists 0. split; [|split; [left; reflexivity|]].
    + destruct (ch =? CH_r); [simpl; ring|].
      destruct (ch =? CH_g); [simpl; ring|].
      destruct (ch =? CH_b); [simpl; ring|].
      destruct (ch =? CH_0); [|simpl; ring].
      destruct c; simpl; ring.
    + destruct (ch =? CH_r); [simpl; lia|].
      destruct (ch =? CH_g); [simpl; lia|].
      destruct (ch =? CH_b); [simpl; lia|].
      destruct (ch =? CH_0); [|simpl; lia].
      destruct c; simpl; lia.
  - exists (char_adv ft ch). split; [|split; [right; reflexivity|]].
    + unfold char_adv. simpl. ring.
    + simpl. lia.
Qed.

Lemma escape_free_cons (ch : Z) (rest : cstring) :
  ch <> NUL -> escape_free (ch :: rest) -> ch <> ESC /\ escape_free rest.
Proof.
  unfold escape_free. cbn [str_chars]. intros Hnul Hfree.
  destruct (Z.eqb_spec ch NUL) as [|_]; [contradiction|].
  split.
  - intros ->. apply Hfree. left. reflexivity.
  - intros Hin. apply Hfree. right. exact Hin.
Qed.

Lemma render_all_escape_free (text : cstring) :
  forall s,
    escape_free text -> s <> 1 ->
    quads (snd (render_all G ft c text s []))
      = map glyph_quad (str_chars text) /\
    (pen_dx (snd (render_all G ft c text s []))
       == inject_Z (adv_sum ft (str_chars text)))%Q.
Proof.
  induction text as [|ch rest IH]; intros s Hfree Hs.
  - simpl. split; reflexivity.
  - cbn [render_all str_chars].
    destruct (Z.eqb_spec ch NUL) as [Hnul|Hnul]; [simpl; split; reflexivity|].
    destruct (escape_free_cons ch rest Hnul Hfree) as (Hesc & Hrest).
    rewrite (bind_trace _ _ (appends_gl_fontRenderCharacter G ft ch c s)
               (fun s1 => appends_render_all G ft c rest s1)).
    rewrite (render_char_normal ch s Hesc Hs). cbn [fst snd app].
    destruct (IH 0 Hrest ltac:(lia)) as (Hq & Hp).
    split.
    + cbn [quads map]. rewrite Hq. reflexivity.
    + cbn [pen_dx fold_right call_dx adv_sum].
      fold (pen_dx (snd (render_all G ft c rest 0 []))).
      rewrite Hp. unfold char_adv. rewrite inject_Z_plus. ring.
Qed.

Lemma width_loop_escape_free (text : cstring) :
  escape_free text ->
  forall n, width_loop ft text n = n + adv_sum ft (str_chars text).
Proof.
  induction text as [|ch rest IH]; intros Hfree n; [simpl; lia|].
  cbn [width_loop str_chars].
  destruct (Z.eqb_spec ch NUL) as [Hnul|Hnul]; [simpl; lia|].
  destruct (escape_free_cons ch rest Hnul Hfree) as (Hesc & Hrest).
  destruct (Z.eqb_spec ch ESC) as [|_]; [contradiction|].
  rewrite IH by exact Hrest. cbn [adv_sum]. lia.
Qed.

Lemma firstn_cons_Z (ch : Z) (rest : cstring) (i ret : Z) :
  i < ret ->
  firstn (Z.to_nat (ret - i)) (ch :: rest)
    = ch :: firstn (Z.to_nat (ret - (i + 1))) rest.
Proof.
  intros Hlt.
  replace (Z.to_nat (ret - i)) with (S (Z.to_nat (ret - (i + 1)))) by lia.
  reflexivity.
Qed.

(** The for loop of the truncating drivers moves the matrix by no more
    than the characters it is given would take, and draws no more quads
    than it is given characters. *)
Lemma render_loop_advance (text : cstring) (ret : Z) :
  forall i s,
    (forall ch, In ch (firstn (Z.to_nat (ret - i)) text) ->
                0 <= char_adv ft ch) ->
    exists d,
      (pen_dx (snd (render_loop G ft c text i ret s [])) == inject_Z d)%Q /\
      0 <= d <= adv_sum ft (firstn (Z.to_nat (ret - i)) text) /\
      (length (quads (snd (render_loop G ft c text i ret s [])))
         <= Z.to_nat (ret - i))%nat.
Proof.
  induction text as [|ch rest IH]; intros i s Hpos.
  - exists 0. rewrite firstn_nil. simpl.
    split; [reflexivity | split; lia].
  - cbn [render_loop]. destruct (Z.ltb_spec i ret) as [Hlt|Hge].
    + rewrite firstn_cons_Z in Hpos |- * by exact Hlt.
      rewrite (bind_trace _ _ (appends_gl_fontRenderCharacter G ft ch c s)
                 (fun s1 => appends_render_loop G ft c rest ret (i + 1) s1)).
      cbn [snd app].
      destruct (render_char_advance ch s) as (d1 & Hd1 & Hcase & Hq1).
      destruct (IH (i + 1) (fst (gl_fontRenderCharacter G ft ch c s []))
                  (fun ch' Hin => Hpos ch' (or_intror Hin)))
        as (d2 & Hd2 & Hb2 & Hq2).
      exists (d1 + d2).
      assert (Hch : 0 <= char_adv ft ch) by (apply Hpos; left; reflexivity).
      split; [|split].
      * rewrite pen_dx_app, Hd1, Hd2, inject_Z_plus. reflexivity.
      * cbn [adv_sum]. destruct Hcase; lia.
      * rewrite quads_app, length_app.
        replace (Z.to_nat (ret - i))
          with (S (Z.to_nat (ret - (i + 1)))) by lia.
        lia.
    + exists 0. replace (Z.to_nat (ret - i)) with 0%nat by lia. simpl.
      split; [reflexivity | split; lia].
Qed.

End Drivers.

Lemma firstn_str_chars (text : cstring) (k : nat) :
  (k <= length (str_chars text))%nat ->
  firstn k text = firstn k (str_chars text).
Proof.
  revert k. induction text as [|ch rest IH]; intros k Hk; [reflexivity|].
  cbn [str_chars] in *.
  destruct (ch =? NUL); [simpl in Hk; replace k with 0%nat by lia; reflexivity|].
  destruct k as [|k]; [reflexivity|].
  simpl in Hk. simpl. rewrite IH by lia. reflexivity.
Qed.

Lemma In_firstn_In (l : list Z) (k : nat) (ch : Z) :
  In ch (firstn k l) -> In ch l.
Proof.
  revert k. induction l as [|x l IH]; intros k Hin.
  - rewrite firstn_nil in Hin. contradiction.
  - destruct k as [|k]; [contradiction|].
    destruct Hin as [<-|Hin]; [left; reflexivity | right; eapply IH; eassumption].
Qed.

(** Proves that a computation built from the renderer's parts appends. *)
Ltac solve_appends :=
  intros;
  repeat first
    [ apply appends_ret
    | apply appends_call
    | apply appends_gl_fontRenderStart
    | apply appends_gl_fontRenderEnd
    | apply appends_gl_fontRenderCharacter
    | apply appends_render_all
    | apply appends_render_loop
    | (apply appends_bind; [|intros ?]) ].

(** Splits the trace of a bind run from the empty trace. *)
Ltac split_bind :=
  match goal with
  | |- context [gl_bind ?m ?k []] =>
      rewrite (bind_trace m k) by solve_appends; cbn [snd app]
  end.

(** The traces of the drivers: start, glyph calls, end. *)
Lemma gl_printRaw_trace (G : Globals) (ft_font : option glFont) (x y : Q)
    (c : option glColour) (text : cstring) (s0 : Z) :
  snd (gl_printRaw G ft_font x y c text s0 []) =
  snd (gl_fontRenderStart G (font_or_default G ft_font) x y c [])
  ++ snd (render_all G (font_or_default G ft_font) c text s0 [])
  ++ snd (gl_fontRenderEnd []).
Proof.
  unfold gl_printRaw. cbv zeta. split_bind. f_equal.
  rewrite (bind_trace (render_all G (font_or_default G ft_font) c text s0)
             (fun _ => gl_fontRenderEnd)) by solve_appends.
  reflexivity.
Qed.

Lemma gl_printMaxRaw_trace (G : Globals) (ft_font : option glFont) (max : Z)
    (x y : Q) (c : option glColour) (text : option cstring) (s0 : Z) :
  snd (gl_printMaxRaw G ft_font max x y c text s0 []) =
  snd (gl_fontRenderStart G (font_or_default G ft_font) x y c [])
  ++ snd (render_loop G (font_or_default G ft_font) c (text_or_nil text) 0
            (fst (font_limitSize (font_or_default G ft_font) None text max))
            s0 [])
  ++ snd (gl_fontRenderEnd []).
Proof.
  unfold gl_printMaxRaw. cbv zeta. split_bind. f_equal.
  match goal with
  | |- snd (gl_bind ?m ?k []) = _ =>
      rewrite (bind_trace m k) by solve_appends
  end.
  cbn [snd app]. reflexivity.
Qed.

Lemma pen_dx_start (G : Globals) (ft : glFont) (x y : Q)
    (c : option glColour) :
  (pen_dx (snd (gl_fontRenderStart G ft x y c []))
     == inject_Z (c_round (dsub x (inject_Z (SCREEN_W G) / 2))))%Q.
Proof.
  rewrite gl_fontRenderStart_trace. destruct c; simpl; ring.
Qed.

Lemma pen_dx_end : (pen_dx (snd (gl_fontRenderEnd [])) == 0)%Q.
Proof. rewrite gl_fontRenderEnd_trace. simpl. ring. Qed.

(** X7: Drawing and measuring agree on text without escape sequences: when
    the local [s] does not happen to start as 1, gl_printRaw draws the quad
    of every character in order and moves the matrix, from the start
    position [round(x - SCREEN_W/2.)] (the difference as a double), by
    exactly the width gl_printWidthRaw reports. *)
Theorem gl_printRaw_draws_measured_width
    (G : Globals) (ft_font : option glFont) (x y : Q) (c : option glColour)
    (text : cstring) (s0 : Z) :
  escape_free text ->
  s0 <> 1 ->
  quads (snd (gl_printRaw G ft_font x y c text s0 []))
    = map glyph_quad (str_chars text) /\
  (pen_dx (snd (gl_printRaw G ft_font x y c text s0 []))
     == inject_Z (c_round (dsub x (inject_Z (SCREEN_W G) / 2)))
        + inject_Z (gl_printWidthRaw G ft_font text))%Q.
Proof.
  intros Hfree Hs. rewrite gl_printRaw_trace.
  destruct (render_all_escape_free G (font_or_default G ft_font) c text s0
              Hfree Hs) as (Hq & Hp).
  split.
  - rewrite !quads_app, Hq, gl_fontRenderStart_trace, gl_fontRenderEnd_trace.
    destruct c; simpl; rewrite app_nil_r; reflexivity.
  - rewrite !pen_dx_app, pen_dx_start, pen_dx_end, Hp.
    unfold gl_printWidthRaw.
    rewrite width_loop_escape_free by exact Hfree.
    rewrite Z.add_0_l. ring.
Qed.

Lemma gl_printRaw_draws_measured_width_witness :
  escape_free (c_str "ab cd") /\
  0 <> 1 /\
  quads (snd (gl_printRaw G0 None 400 300 None (c_str "ab cd") 0 []))
    = map glyph_quad (str_chars (c_str "ab cd")) /\
  (pen_dx (snd (gl_printRaw G0 None 400 300 None (c_str "ab cd") 0 []))
     == inject_Z (c_round (dsub 400 (inject_Z (SCREEN_W G0) / 2)))
        + inject_Z (gl_printWidthRaw G0 None (c_str "ab cd")))%Q.
Proof.
  assert (Hfree : escape_free (c_str "ab cd")).
  { unfold escape_free. vm_compute. intuition discriminate. }
  assert (Hs : 0 <> 1) by discriminate.
  split; [exact Hfree|]. split; [exact Hs|].
  exact (gl_printRaw_draws_measured_width G0 None 400 300 None
           (c_str "ab cd") 0 Hfree Hs).
Defined.

(** X8: gl_printMaxRaw stays within its budget: for a font whose advances are
    not negative and a budget that is not negative, whatever the text and
    the initial escape state, the matrix ends between the start position
    [round(x - SCREEN_W/2.)] (the difference as a double) and that
    position plus [max], and no more quads are drawn than font_limitSize
    counted characters. *)
Theorem gl_printMaxRaw_within_budget
    (G : Globals) (ft_font : option glFont) (max : Z) (x y : Q)
    (c : option glColour) (text : option cstring) (s0 : Z) :
  (forall ch, In ch (str_chars (text_or_nil text)) ->
     0 <= char_adv (font_or_default G ft_font) ch) ->
  0 <= max ->
  let tr := snd (gl_printMaxRaw G ft_font max x y c text s0 []) in
  let start := inject_Z (c_round (dsub x (inject_Z (SCREEN_W G) / 2))) in
  (start <= pen_dx tr)%Q /\
  (pen_dx tr <= start + inject_Z max)%Q /\
  Z.of_nat (length (quads tr))
    <= fst (font_limitSize (font_or_default G ft_font) None text max).
Proof.
  intros Hpos Hmax tr start. subst tr start.
  set (ft := font_or_default G ft_font) in *.
  rewrite gl_printMaxRaw_trace. fold ft.
  assert (Hcount : exists k : nat,
            fst (font_limitSize ft None text max) = Z.of_nat k /\
            (k <= length (str_chars (text_or_nil text)))%nat /\
            adv_sum ft (firstn k (str_chars (text_or_nil text))) <= max).
  { destruct text as [t|]; cbn [font_limitSize text_or_nil].
    - destruct (limit_loop_spec ft t max 0 0) as (k & Hk & Heq & Hfits & _).
      rewrite Heq. cbn [fst]. exists k.
      split; [lia|]. split; [exact Hk|].
      destruct k as [|k]; [simpl; lia|].
      specialize (Hfits (S k) ltac:(lia)). lia.
    - exists 0%nat. simpl. repeat split; lia. }
  destruct Hcount as (k & Hret & Hk & Hfit). rewrite Hret.
  assert (Hpos' : forall ch,
            In ch (firstn (Z.to_nat (Z.of_nat k - 0)) (text_or_nil text)) ->
            0 <= char_adv ft ch).
  { intros ch Hin. apply Hpos.
    replace (Z.to_nat (Z.of_nat k - 0)) with k in Hin by lia.
    rewrite firstn_str_chars in Hin by exact Hk.
    eapply In_firstn_In; eassumption. }
  destruct (render_loop_advance G ft c (text_or_nil text) (Z.of_nat k) 0 s0
              Hpos') as (d & Hd & Hb & Hq).
  replace (Z.to_nat (Z.of_nat k - 0)) with k in Hb, Hq by lia.
  rewrite firstn_str_chars in Hb by exact Hk.
  rewrite !pen_dx_app, pen_dx_start, pen_dx_end, Hd.
  split; [|split].
  - setoid_replace (inject_Z (c_round (dsub x (inject_Z (SCREEN_W G) / 2)))
                    + (inject_Z d + 0))%Q
      with (inject_Z (c_round (dsub x (inject_Z (SCREEN_W G) / 2)) + d))%Q
      by (rewrite inject_Z_plus; ring).
    rewrite <- Zle_Qle. lia.
  - setoid_replace (inject_Z (c_round (dsub x (inject_Z (SCREEN_W G) / 2)))
                    + (inject_Z d + 0))%Q
      with (inject_Z (c_round (dsub x (inject_Z (SCREEN_W G) / 2)) + d))%Q
      by (rewrite inject_Z_plus; ring).
    rewrite <- inject_Z_plus, <- Zle_Qle. lia.
  - rewrite !quads_app, !length_app.
    rewrite gl_fontRenderStart_trace, gl_fontRenderEnd_trace.
    assert (Hs : length (quads
                  [glEnable_TEXTURE_2D; glBindTexture (texture ft);
                   gl_matrixMode_MODELVIEW; gl_matrixPush;
                   gl_matrixTranslate
                     (inject_Z (c_round (dsub x (inject_Z (SCREEN_W G) / 2))))
                     (inject_Z (c_round (dsub y (inject_Z (SCREEN_H G) / 2))));
                   caller_colour c;
                   gl_vboActivateOffset_TEXTURE_COORD (vbo ft) 0;
                   gl_vboActivateOffset_VERTEX (vbo ft) (128 * 8 * 4)])
                = 0%nat) by (destruct c; reflexivity).
    rewrite Hs. simpl length. lia.
Qed.

Lemma gl_printMaxRaw_within_budget_witness :
  (forall ch, In ch (str_chars (text_or_nil (Some (c_str "abcde")))) ->
     0 <= char_adv (font_or_default G0 None) ch) /\
  0 <= 25 /\
  let tr := snd (gl_printMaxRaw G0 None 25 400 300 None
                   (Some (c_str "abcde")) 0 []) in
  let start := inject_Z (c_round (dsub 400 (inject_Z (SCREEN_W G0) / 2))) in
  (start <= pen_dx tr)%Q /\
  (pen_dx tr <= start + inject_Z 25)%Q /\
  Z.of_nat (length (quads tr))
    <= fst (font_limitSize (font_or_default G0 None) None
              (Some (c_str "abcde")) 25).
Proof.
  split; [intros ch _; apply font10_advances|].
  split; [lia|].
  apply (gl_printMaxRaw_within_budget G0 None 25 400 300 None
           (Some (c_str "abcde")) 0).
  - intros ch _; apply font10_advances.
  - lia.
Defined.

(** ** The uninitialised escape state *)

Section EscapeState.

Variable G : Globals.
Variable ft : glFont.
Variable c : option glColour.

Lemma same_state_refl (s : Z) : same_state s s.
Proof. reflexivity. Qed.

(** The renderer step looks at its state only to compare it with 1. *)
Lemma render_char_same_state (ch s s' : Z) :
  same_state s s' ->
  gl_fontRenderCharacter G ft ch c s = gl_fontRenderCharacter G ft ch c s'.
Proof.
  unfold same_state, gl_fontRenderCharacter. intros ->. reflexivity.
Qed.

Lemma render_all_same_state (text : cstring) :
  forall s s' tr,
    same_state s s' ->
    snd (render_all G ft c text s tr) = snd (render_all G ft c text s' tr) /\
    same_state (fst (render_all G ft c text s tr))
               (fst (render_all G ft c text s' tr)).
Proof.
  induction text as [|ch rest IH]; intros s s' tr Hs.
  - simpl. split; [reflexivity | exact Hs].
  - cbn [render_all]. destruct (ch =? NUL).
    + simpl. split; [reflexivity | exact Hs].
    + unfold gl_bind. rewrite (render_char_same_state ch s s' Hs).
      destruct (gl_fontRenderCharacter G ft ch c s' tr) as [s1 tr1].
      apply IH. apply same_state_refl.
Qed.

Lemma render_loop_same_state (text : cstring) (ret : Z) :
  forall i s s' tr,
    same_state s s' ->
    snd (render_loop G ft c text i ret s tr)
      = snd (render_loop G ft c text i ret s' tr) /\
    same_state (fst (render_loop G ft c text i ret s tr))
               (fst (render_loop G ft c text i ret s' tr)).
Proof.
  induction text as [|ch rest IH]; intros i s s' tr Hs.
  - simpl. split; [reflexivity | exact Hs].
  - cbn [render_loop]. destruct (i <? ret).
    + unfold gl_bind. rewrite (render_char_same_state ch s s' Hs).
      destruct (gl_fontRenderCharacter G ft ch c s' tr) as [s1 tr1].
      apply IH. apply same_state_refl.
    + simpl. split; [reflexivity | exact Hs].
Qed.

Lemma text_loop_same_state (width : Z) (x by_ : Q) (fuel : nat) :
  forall text_p y s s' tr,
    same_state s s' ->
    text_loop G ft width c fuel text_p x y by_ s tr
      = text_loop G ft width c fuel text_p x y by_ s' tr.
Proof.
  induction fuel as [|fuel IH]; intros text_p y s s' tr Hs; [reflexivity|].
  cbn [text_loop]. destruct (Qle_bool (dsub y by_) minus_epsilon); [reflexivity|].
  unfold gl_bind.
  destruct (gl_fontRenderStart G ft x y c tr) as [u tr1].
  destruct (render_loop_same_state text_p
              (gl_printWidthForText G (Some ft) text_p width) 0 s s' tr1 Hs)
    as (Htr & Hst).
  destruct (render_loop G ft c text_p 0
              (gl_printWidthForText G (Some ft) text_p width) s tr1)
    as [s1 tr2].
  destruct (render_loop G ft c text_p 0
              (gl_printWidthForText G (Some ft) text_p width) s' tr1)
    as [s1' tr2'].
  cbn [fst snd] in Htr, Hst. subst tr2'.
  destruct (gl_fontRenderEnd tr2) as [u' tr3].
  destruct (text_at text_p
              (Z.max 0 (gl_printWidthForText G (Some ft) text_p width))
            =? NUL); [reflexivity|].
  apply IH. exact Hst.
Qed.

End EscapeState.

Lemma same_state_not_1 (s0 : Z) : s0 <> 1 -> same_state s0 0.
Proof.
  intros Hs. unfold same_state.
  destruct (Z.eqb_spec s0 1) as [|_]; [contradiction | reflexivity].
Qed.

(** X9: The drivers read the local [s] before writing it.  Its initial value
    matters only through whether it is 1: every other value gives the
    calls that 0 gives, in all four drivers. *)
Theorem drivers_ignore_initial_state_unless_1
    (G : Globals) (ft_font : option glFont) (x y : Q) (c : option glColour)
    (s0 : Z) (tr : list gl_call) :
  s0 <> 1 ->
  (forall text,
     gl_printRaw G ft_font x y c text s0 tr
       = gl_printRaw G ft_font x y c text 0 tr) /\
  (forall max text,
     gl_printMaxRaw G ft_font max x y c text s0 tr
       = gl_printMaxRaw G ft_font max x y c text 0 tr) /\
  (forall width text n0,
     gl_printMidRaw G ft_font width x y c text s0 n0 tr
       = gl_printMidRaw G ft_font width x y c text 0 n0 tr) /\
  (forall width height text,
     gl_printTextRaw G ft_font width height x y c text s0 tr
       = gl_printTextRaw G ft_font width height x y c text 0 tr).
Proof.
  intros Hs0. pose proof (same_state_not_1 s0 Hs0) as Hs.
  split; [|split; [|split]].
  - intros text. unfold gl_printRaw, gl_bind.
    destruct (gl_fontRenderStart _ _ _ _ _ tr) as [u tr1].
    destruct (render_all_same_state G (font_or_default G ft_font) c text
                s0 0 tr1 Hs) as (Htr & _).
    destruct (render_all _ _ _ _ s0 tr1) as [s1 tr2].
    destruct (render_all _ _ _ _ 0 tr1) as [s1' tr2'].
    cbn [snd] in Htr. subst tr2'. reflexivity.
  - intros max text. unfold gl_printMaxRaw, gl_bind.
    destruct (gl_fontRenderStart _ _ _ _ _ tr) as [u tr1].
    destruct (render_loop_same_state G (font_or_default G ft_font) c
                (text_or_nil text)
                (fst (font_limitSize (font_or_default G ft_font) None text max))
                0 s0 0 tr1 Hs) as (Htr & _).
    destruct (render_loop _ _ _ _ _ _ s0 tr1) as [s1 tr2].
    destruct (render_loop _ _ _ _ _ _ 0 tr1) as [s1' tr2'].
    cbn [snd] in Htr. subst tr2'. reflexivity.
  - intros width text n0. unfold gl_printMidRaw.
    destruct (font_limitSize (font_or_default G ft_font) (Some n0) text width)
      as [ret wr].
    unfold gl_bind.
    destruct (gl_fontRenderStart _ _ _ _ _ tr) as [u tr1].
    destruct (render_loop_same_state G (font_or_default G ft_font) c
                (text_or_nil text) ret 0 s0 0 tr1 Hs) as (Htr & _).
    destruct (render_loop _ _ _ _ _ _ s0 tr1) as [s1 tr2].
    destruct (render_loop _ _ _ _ _ _ 0 tr1) as [s1' tr2'].
    cbn [snd] in Htr. subst tr2'. reflexivity.
  - intros width height text. unfold gl_printTextRaw, gl_bind.
    rewrite (text_loop_same_state G (font_or_default G ft_font) c width x y
               (S (length text)) text _ s0 0 tr Hs).
    reflexivity.
Qed.

Lemma drivers_ignore_initial_state_unless_1_witness :
  7 <> 1 /\
  (forall text,
     gl_printRaw G0 None 0 0 None text 7 []
       = gl_printRaw G0 None 0 0 None text 0 []) /\
  (forall max text,
     gl_printMaxRaw G0 None max 0 0 None text 7 []
       = gl_printMaxRaw G0 None max 0 0 None text 0 []) /\
  (forall width text n0,
     gl_printMidRaw G0 None width 0 0 None text 7 n0 []
       = gl_printMidRaw G0 None width 0 0 None text 0 n0 []) /\
  (forall width height text,
     gl_printTextRaw G0 None width height 0 0 None text 7 []
       = gl_printTextRaw G0 None width height 0 0 None text 0 []).
Proof.
  split; [discriminate|].
  apply (drivers_ignore_initial_state_unless_1 G0 None 0 0 None 7 []).
  discriminate.
Defined.

(** X10: When the local [s] happens to start as 1, gl_printRaw takes the first
    character for a colour directive: it is not drawn, and the quads are
    those of the rest of the text. *)
Theorem gl_printRaw_state_1_swallows_first_character
    (G : Globals) (ft_font : option glFont) (x y : Q) (c : option glColour)
    (ch : Z) (rest : cstring) :
  ch <> NUL -> ch <> ESC ->
  quads (snd (gl_printRaw G ft_font x y c (ch :: rest) 1 []))
    = quads (snd (gl_printRaw G ft_font x y c rest 0 [])).
Proof.
  intros Hnul Hesc. rewrite !gl_printRaw_trace, !quads_app.
  f_equal. f_equal.
  cbn [render_all].
  destruct (Z.eqb_spec ch NUL) as [|_]; [contradiction|].
  rewrite (bind_trace _ _
             (appends_gl_fontRenderCharacter G (font_or_default G ft_font)
                ch c 1)
             (fun s1 => appends_render_all G (font_or_default G ft_font)
                          c rest s1)).
  cbn [snd app]. rewrite quads_app.
  unfold gl_fontRenderCharacter at 1 2.
  destruct (Z.eqb_spec ch ESC) as [|_]; [contradiction|].
  change (1 =? 1) with true. cbv iota.
  destruct (ch =? CH_r); [reflexivity|].
  destruct (ch =? CH_g); [reflexivity|].
  destruct (ch =? CH_b); [reflexivity|].
  destruct (ch =? CH_0); [|reflexivity].
  destruct c; reflexivity.
Qed.

Lemma gl_printRaw_state_1_swallows_first_character_witness :
  97 <> NUL /\ 97 <> ESC /\
  quads (snd (gl_printRaw G0 None 0 0 None (97 :: c_str "bc") 1 []))
    = quads (snd (gl_printRaw G0 None 0 0 None (c_str "bc") 0 [])).
Proof.
  split; [discriminate|]. split; [discriminate|].
  apply (gl_printRaw_state_1_swallows_first_character G0 None 0 0 None
           97 (c_str "bc")); discriminate.
Defined.

(** ** binary64 on half pixels *)

Lemma floor_log2_ratio_lt (n d : Z) :
  0 < n -> 0 < d -> n < d * 2 ^ 52 -> floor_log2_ratio n d <= 51.
Proof.
  intros Hn Hd Hlt. unfold floor_log2_ratio.
  destruct (Z.log2_spec d Hd) as (Hd1 & Hd2).
  pose proof (Z.log2_nonneg d) as Hld.
  assert (Hn53 : n < 2 ^ (Z.log2 d + 53)).
  { rewrite Z.pow_add_r by lia.
    unfold Z.succ in Hd2. rewrite Z.pow_add_r in Hd2 by lia.
    change (2 ^ 1) with 2 in Hd2. change (2 ^ 53) with (2 * 2 ^ 52).
    nia. }
  apply Z.log2_lt_pow2 in Hn53; [|exact Hn].
  set (e0 := Z.log2 n - Z.log2 d) in *.
  assert (He0 : e0 <= 52) by (unfold e0; lia).
  destruct (Z.leb_spec (d * 2 ^ Z.max 0 e0) (n * 2 ^ Z.max 0 (- e0)))
    as [Htest|Htest]; [|lia].
  destruct (Z.eq_dec e0 52) as [He|He]; [|lia].
  rewrite He in Htest. change (Z.max 0 52) with 52 in Htest.
  change (2 ^ Z.max 0 (- (52))) with 1 in Htest.
  lia.
Qed.

(** A whole number of half pixels below [2^52] pixels is a double: binary64
    leaves it as it is. *)
Lemma binary64_half_exact (q : Q) (m : Z) :
  (q == inject_Z m * (1 # 2))%Q ->
  Z.abs m < 2 ^ 53 ->
  (binary64 q == q)%Q.
Proof.
  destruct q as [a b]. intros Hq Hm.
  assert (H2a : 2 * a = m * Z.pos b).
  { unfold Qeq, Qmult, inject_Z in Hq. cbn [Qnum Qden] in Hq.
    change (Z.pos (1 * 2)) with 2 in Hq. lia. }
  unfold binary64. cbn [Qnum Qden].
  destruct (Z.eqb_spec a 0) as [Ha|Ha].
  { subst a. unfold Qeq. simpl. reflexivity. }
  set (d := Z.pos b) in *.
  assert (Hd : 0 < d) by (unfold d; lia).
  assert (Hn : 0 < Z.abs a) by lia.
  assert (H2n : 2 * Z.abs a = Z.abs m * d).
  { replace (2 * Z.abs a) with (Z.abs (2 * a)) by (rewrite Z.abs_mul; lia).
    rewrite H2a, Z.abs_mul. f_equal; lia. }
  assert (Hlt : Z.abs a < d * 2 ^ 52).
  { change (2 ^ 53) with (2 * 2 ^ 52) in Hm. nia. }
  pose proof (floor_log2_ratio_lt _ _ Hn Hd Hlt) as He.
  set (e := floor_log2_ratio (Z.abs a) d) in *.
  set (qe := Z.max (e - 52) (- 1074)).
  assert (Hqe : - 1074 <= qe <= - 1) by (unfold qe; lia).
  replace (Z.max 0 (- qe)) with (- qe) by lia.
  replace (Z.max 0 qe) with 0 by lia.
  change (2 ^ 0) with 1. rewrite Z.mul_1_r.
  destruct (Z.leb_spec 0 qe) as [Hpos|_]; [lia|].
  assert (Hpow : 2 ^ (- qe) = 2 * 2 ^ (- qe - 1)).
  { rewrite <- Z.pow_succ_r by lia. f_equal. lia. }
  assert (Hp0 : 0 < 2 ^ (- qe - 1)) by (apply Z.pow_pos_nonneg; lia).
  assert (Hnum : Z.abs a * 2 ^ (- qe) = (Z.abs m * 2 ^ (- qe - 1)) * d).
  { rewrite Hpow. nia. }
  unfold round_half_even. rewrite Hnum.
  rewrite Z.mod_mul by lia. rewrite Z.div_mul by lia.
  change (2 * 0) with 0.
  destruct (Z.compare_spec 0 d) as [H0|H0|H0]; try lia.
  unfold Qeq. cbn [Qnum Qden]. fold d.
  rewrite Z2Pos.id by lia. rewrite Hpow.
  assert (Hsgn : Z.sgn a * Z.abs a = a) by (destruct a; simpl; lia).
  nia.
Qed.

Lemma dsub_half_exact (x y : Q) (m : Z) :
  (x - y == inject_Z m * (1 # 2))%Q ->
  Z.abs m < 2 ^ 53 ->
  (dsub x y == inject_Z m * (1 # 2))%Q.
Proof.
  intros Hq Hm. unfold dsub.
  rewrite (binary64_half_exact _ m Hq Hm). exact Hq.
Qed.

Lemma dadd_half_exact (x y : Q) (m : Z) :
  (x + y == inject_Z m * (1 # 2))%Q ->
  Z.abs m < 2 ^ 53 ->
  (dadd x y == inject_Z m * (1 # 2))%Q.
Proof.
  intros Hq Hm. unfold dadd.
  rewrite (binary64_half_exact _ m Hq Hm). exact Hq.
Qed.

(** Where the rounding shows.  At [x = 0.5 + 2^-53] on a screen 800 wide
    the difference [x - 400] is not a double: it rounds to [-399.5], and
    [round] then gives [-400], where the exact difference gives [-399]. *)
Lemma gl_fontRenderStart_rounds_difference :
  c_round (dsub ((1 # 2) + (1 # 9007199254740992)) (inject_Z 800 / 2)) = -400 /\
  c_round ((1 # 2) + (1 # 9007199254740992) - inject_Z 800 / 2) = -399.
Proof. split; vm_compute; reflexivity. Qed.

(** At [by = 2^53] the sum [by + 11] rounds to [by + 12], so a box of
    height 11 holds one line of a font of height 12 there, and none at
    [by = 0]. *)
Lemma gl_printTextRaw_rounds_box_top :
  pushes (snd (gl_printTextRaw G0 None 100 11 0 (inject_Z (2 ^ 53)) None
                 (c_str "a") 0 [])) = 1%nat /\
  pushes (snd (gl_printTextRaw G0 None 100 11 0 0 None
                 (c_str "a") 0 [])) = 0%nat.
Proof. split; vm_compute; reflexivity. Qed.

(** ** gl_printTextRaw *)

Lemma minus_epsilon_bounds :
  (- (1 # 2) <= minus_epsilon)%Q /\ (minus_epsilon < 0)%Q.
Proof.
  split.
  - unfold Qle. vm_compute. discriminate.
  - unfold Qlt. vm_compute. reflexivity.
Qed.

(** The loop test [y - by > -1e-5] on a difference that is a whole number
    of half pixels: it fails exactly when that number is negative. *)
Lemma half_pixel_test (q : Q) (m : Z) :
  (q == inject_Z m * (1 # 2))%Q ->
  Qle_bool q minus_epsilon = (m <? 0).
Proof.
  intros Hq. destruct minus_epsilon_bounds as (Hlo & Hhi).
  destruct (Z.ltb_spec m 0) as [Hneg|Hpos].
  - apply Qle_bool_iff. rewrite Hq.
    apply Qle_trans with (- (1 # 2))%Q; [|exact Hlo].
    assert (Hm : (inject_Z m <= inject_Z (- 1))%Q)
      by (rewrite <- Zle_Qle; lia).
    unfold Qle in *. cbn [Qnum Qden inject_Z Qmult Qopp] in *. lia.
  - destruct (Qle_bool q minus_epsilon) eqn:Htest; [|reflexivity].
    exfalso. apply Qle_bool_iff in Htest. rewrite Hq in Htest.
    assert (Hm : (inject_Z 0 <= inject_Z m)%Q) by (rewrite <- Zle_Qle; lia).
    assert (Hq0 : (0 <= inject_Z m * (1 # 2))%Q).
    { unfold Qle in *. cbn [Qnum Qden inject_Z Qmult] in *. lia. }
    apply (Qlt_irrefl 0).
    apply Qle_lt_trans with (inject_Z m * (1 # 2))%Q; [exact Hq0|].
    apply Qle_lt_trans with minus_epsilon; assumption.
Qed.

Section TextBlock.

Variable G : Globals.
Variable ft : glFont.
Variable width : Z.
Variable c : option glColour.
Variable x by_ : Q.

Lemma appends_text_loop (fuel : nat) :
  forall text_p y s, appends (text_loop G ft width c fuel text_p x y by_ s).
Proof.
  induction fuel as [|fuel IH]; intros text_p y s; cbn [text_loop].
  - apply appends_ret.
  - destruct (Qle_bool (dsub y by_) minus_epsilon); [apply appends_ret|].
    apply appends_bind; [apply appends_gl_fontRenderStart | intros _].
    apply appends_bind; [apply appends_render_loop | intros s1].
    apply appends_bind; [apply appends_gl_fontRenderEnd | intros _].
    destruct (text_at text_p _ =? NUL); [apply appends_ret | apply IH].
Qed.

Lemma wrapped_lines_pos (text : cstring) (k : Z) :
  wrapped_lines G ft width text k -> 1 <= k.
Proof.
  induction 1 as [text Hend | text k Hmore Hrest IH]; lia.
Qed.

(** One line: the calls between a start and an end hold one push and one
    pop. *)
Lemma line_pushes (text_p : cstring) (x0 y : Q) (ret s : Z) :
  pushes (snd (gl_fontRenderStart G ft x0 y c [])
          ++ snd (render_loop G ft c text_p 0 ret s [])
          ++ snd (gl_fontRenderEnd [])) = 1%nat /\
  pops (snd (gl_fontRenderStart G ft x0 y c [])
        ++ snd (render_loop G ft c text_p 0 ret s [])
        ++ snd (gl_fontRenderEnd [])) = 1%nat.
Proof.
  destruct (glyph_calls_no_push _ (render_loop_calls G ft c text_p ret 0 s))
    as (Hpu & Hpo).
  rewrite !pushes_app, !pops_app, Hpu, Hpo.
  rewrite gl_fontRenderStart_trace, gl_fontRenderEnd_trace.
  destruct c; split; reflexivity.
Qed.

(** One turn of the loop that passes the test. *)
Lemma text_loop_turn (fuel : nat) (text_p : cstring) (y : Q) (s : Z) :
  Qle_bool (dsub y by_) minus_epsilon = false ->
  let ret := gl_printWidthForText G (Some ft) text_p width in
  let line := snd (gl_fontRenderStart G ft x y c [])
              ++ snd (render_loop G ft c text_p 0 ret s [])
              ++ snd (gl_fontRenderEnd []) in
  let s1 := fst (render_loop G ft c text_p 0 ret s []) in
  text_loop G ft width c (S fuel) text_p x y by_ s [] =
  if text_at text_p ret =? NUL then (true, line)
  else
    (fst (text_loop G ft width c fuel (skipn (Z.to_nat (ret + 1)) text_p) x
            (dsub y ((3 # 2) * inject_Z (h ft))) by_ s1 []),
     line ++
     snd (text_loop G ft width c fuel (skipn (Z.to_nat (ret + 1)) text_p) x
            (dsub y ((3 # 2) * inject_Z (h ft))) by_ s1 [])).
Proof.
  intros Htest ret line s1. cbn [text_loop]. rewrite Htest.
  fold ret.
  assert (Hmax : Z.max 0 ret = ret).
  { pose proof (wft_loop_bounds ft text_p width 0 0 0 ltac:(lia)) as Hb.
    unfold ret, gl_printWidthForText. cbn [font_or_default]. lia. }
  rewrite Hmax.
  assert (Hk : forall s', appends
            (if text_at text_p ret =? NUL then gl_ret true
             else text_loop G ft width c fuel
                    (skipn (Z.to_nat (ret + 1)) text_p) x
                    (dsub y ((3 # 2) * inject_Z (h ft))) by_ s')).
  { intros s'. destruct (text_at text_p ret =? NUL);
      [apply appends_ret | apply appends_text_loop]. }
  rewrite bind_trace;
    [|apply appends_gl_fontRenderStart
     |intros _; apply appends_bind; [apply appends_render_loop|];
      intros s'; apply appends_bind; [apply appends_gl_fontRenderEnd|];
      intros _; apply Hk].
  rewrite bind_trace;
    [|apply appends_render_loop
     |intros s'; apply appends_bind; [apply appends_gl_fontRenderEnd|];
      intros _; apply Hk].
  rewrite bind_trace;
    [|apply appends_gl_fontRenderEnd | intros _; apply Hk].
  cbn [fst snd app]. fold s1.
  destruct (text_at text_p ret =? NUL).
  - unfold gl_ret. cbn [fst snd]. unfold line. rewrite app_nil_r.
    reflexivity.
  - unfold line. rewrite <- !app_assoc. reflexivity.
Qed.

(** Whatever the positions are, the loop ends within its fuel with as many
    pops as pushes, and it draws at most the lines of the text. *)
Lemma text_loop_general (fuel : nat) :
  forall text_p y s,
    (length text_p < fuel)%nat ->
    exists tr,
      text_loop G ft width c fuel text_p x y by_ s [] = (true, tr) /\
      pushes tr = pops tr /\
      forall k,
        wrapped_lines G ft width text_p k -> Z.of_nat (pushes tr) <= k.
Proof.
  induction fuel as [|fuel IH]; intros text_p y s Hlen; [lia|].
  destruct (Qle_bool (dsub y by_) minus_epsilon) eqn:Htest.
  - exists []. cbn [text_loop]. rewrite Htest.
    split; [reflexivity|]. split; [reflexivity|].
    intros k Hk. pose proof (wrapped_lines_pos _ _ Hk).
    change (Z.of_nat (pushes [])) with 0. lia.
  - rewrite (text_loop_turn fuel text_p y s Htest).
    set (ret := gl_printWidthForText G (Some ft) text_p width).
    set (line := snd (gl_fontRenderStart G ft x y c [])
                 ++ snd (render_loop G ft c text_p 0 ret s [])
                 ++ snd (gl_fontRenderEnd [])).
    destruct (line_pushes text_p x y ret s) as (Hpu & Hpo).
    fold line in Hpu, Hpo.
    destruct (Z.eqb_spec (text_at text_p ret) NUL) as [Hend|Hmore].
    + exists line. split; [reflexivity|]. split; [lia|].
      intros k Hk. rewrite Hpu. pose proof (wrapped_lines_pos _ _ Hk). lia.
    + destruct (text_at_in_range _ _ Hmore) as (Hi & Hin).
      set (s1 := fst (render_loop G ft c text_p 0 ret s [])).
      destruct (IH (skipn (Z.to_nat (ret + 1)) text_p)
                  (dsub y ((3 # 2) * inject_Z (h ft))) s1)
        as (tr & Hrun & Hbal & Hlines).
      { rewrite length_skipn. lia. }
      exists (line ++ tr). rewrite Hrun. cbn [fst snd].
      split; [reflexivity|].
      rewrite pushes_app, pops_app, Hpu, Hpo.
      split; [lia|].
      intros k Hk.
      inversion Hk as [t Hend' | t k' Hmore' Hrest']; subst;
        [contradiction|].
      specialize (Hlines k' Hrest'). lia.
Qed.

(** On half pixels the loop is exact.  [b] is [by] and [m] the height of
    [y] above [by], both in half pixels.  With a line height that is not
    negative the loop draws all [k] lines when the last one is not below
    [by], and otherwise it stops early. *)
Lemma text_loop_lines (fuel : nat) :
  forall text_p y b m s k,
    (by_ == inject_Z b * (1 # 2))%Q ->
    (y == inject_Z (b + m) * (1 # 2))%Q ->
    (length text_p < fuel)%nat ->
    wrapped_lines G ft width text_p k ->
    Z.abs b + Z.abs m + 3 * Z.abs (h ft) * k < 2 ^ 53 ->
    exists tr,
      text_loop G ft width c fuel text_p x y by_ s [] = (true, tr) /\
      (0 <= h ft -> 0 <= m - 3 * h ft * (k - 1) ->
       Z.of_nat (pushes tr) = k) /\
      (m - 3 * h ft * (k - 1) < 0 -> Z.of_nat (pushes tr) < k).
Proof.
  induction fuel as [|fuel IH]; intros text_p y b m s k Hby Hy Hlen Hk Hbound;
    [lia|].
  pose proof (wrapped_lines_pos _ _ Hk) as Hk1.
  assert (Hdiff : (dsub y by_ == inject_Z m * (1 # 2))%Q).
  { apply dsub_half_exact; [|nia].
    rewrite Hy, Hby, inject_Z_plus. ring. }
  pose proof (half_pixel_test _ _ Hdiff) as Htest.
  destruct (Z.ltb_spec m 0) as [Hneg|Hpos].
  - exists []. cbn [text_loop]. rewrite Htest.
    split; [reflexivity|].
    change (Z.of_nat (pushes [])) with 0.
    split; [intros Hh Hm; nia | lia].
  - rewrite (text_loop_turn fuel text_p y s Htest).
    set (ret := gl_printWidthForText G (Some ft) text_p width) in *.
    set (line := snd (gl_fontRenderStart G ft x y c [])
                 ++ snd (render_loop G ft c text_p 0 ret s [])
                 ++ snd (gl_fontRenderEnd [])).
    destruct (line_pushes text_p x y ret s) as (Hpu & _).
    fold line in Hpu.
    destruct (Z.eqb_spec (text_at text_p ret) NUL) as [Hend|Hmore].
    + exists line. split; [reflexivity|]. rewrite Hpu.
      inversion Hk as [t Hend' | t k' Hmore' Hrest']; subst;
        [|contradiction].
      split; [intros; lia | nia].
    + destruct (text_at_in_range _ _ Hmore) as (Hi & Hin).
      set (s1 := fst (render_loop G ft c text_p 0 ret s [])).
      inversion Hk as [t Hend' | t k' Hmore' Hrest']; subst;
        [contradiction|].
      pose proof (wrapped_lines_pos _ _ Hrest') as Hk'.
      assert (Hnext : (dsub y ((3 # 2) * inject_Z (h ft))
                       == inject_Z (b + (m - 3 * h ft)) * (1 # 2))%Q).
      { apply dsub_half_exact; [|nia].
        rewrite Hy. unfold Zminus.
        rewrite !inject_Z_plus, inject_Z_opp, inject_Z_mult.
        change (inject_Z 3) with 3%Q. ring. }
      destruct (IH (skipn (Z.to_nat (ret + 1)) text_p)
                  (dsub y ((3 # 2) * inject_Z (h ft)))
                  b (m - 3 * h ft) s1 k' Hby Hnext)
        as (tr & Hrun & Hall & Hcut).
      { rewrite length_skipn. lia. }
      { exact Hrest'. }
      { nia. }
      exists (line ++ tr). rewrite Hrun. cbn [fst snd].
      split; [reflexivity|].
      rewrite pushes_app, Hpu, Nat2Z.inj_add.
      split.
      * intros Hh Hm. rewrite Hall; [lia | exact Hh | nia].
      * intros Hm.
        assert (Z.of_nat (pushes tr) < k') by (apply Hcut; nia).
        lia.
Qed.

(** Every text wraps into some number of lines. *)
Lemma wrapped_lines_exist (text : cstring) :
  exists k, wrapped_lines G ft width text k.
Proof.
  destruct (height_loop_lines G ft width (S (length text)) text 0%Q
              ltac:(lia)) as (k & _ & _ & Hk & _).
  exists k. exact Hk.
Qed.

End TextBlock.

(** X13: gl_printTextRaw always returns 0, for every text, font and box: the
    loop cannot run for ever, because each line takes at least one
    character.  Each batch it starts it also ends, and it draws no more
    lines than the text wraps into. *)
Theorem gl_printTextRaw_returns_0_balanced
    (G : Globals) (ft_font : option glFont) (width height : Z) (bx by_ : Q)
    (c : option glColour) (text : cstring) (s0 : Z) :
  exists tr,
    gl_printTextRaw G ft_font width height bx by_ c text s0 []
      = (Some 0, tr) /\
    pushes tr = pops tr /\
    exists k,
      wrapped_lines G (font_or_default G ft_font) width text k /\
      Z.of_nat (pushes tr) <= k.
Proof.
  set (ft := font_or_default G ft_font).
  destruct (text_loop_general G ft width c bx by_ (S (length text)) text
              (dsub (dadd by_ (inject_Z height)) (inject_Z (h ft))) s0
              ltac:(lia))
    as (tr & Hrun & Hbal & Hlines).
  exists tr. unfold gl_printTextRaw. fold ft. cbv zeta.
  unfold gl_bind. rewrite Hrun.
  split; [reflexivity|]. split; [exact Hbal|].
  destruct (wrapped_lines_exist G ft width text) as (k & Hk).
  exists k. split; [exact Hk|]. apply Hlines. exact Hk.
Qed.

(** The criterion for drawing every line, in a box on half pixels. *)
Lemma gl_printTextRaw_run_iff_aux
    (G : Globals) (ft_font : option glFont) (width height : Z) (bx by_ : Q)
    (c : option glColour) (text : cstring) (s0 : Z) (k : Z) :
  0 <= h (font_or_default G ft_font) ->
  wrapped_lines G (font_or_default G ft_font) width text k ->
  half_pixel_box by_ height (h (font_or_default G ft_font)) k ->
  (Z.of_nat (pushes (snd (gl_printTextRaw G ft_font width height bx by_ c
                            text s0 []))) = k
   <-> h (font_or_default G ft_font) * (3 * k - 1) <= 2 * height).
Proof.
  set (ft := font_or_default G ft_font).
  intros Hh Hk (b & Hby & Hbound).
  pose proof (wrapped_lines_pos _ _ _ _ _ Hk) as Hk1.
  assert (Hsum : (dadd by_ (inject_Z height)
                  == inject_Z (b + 2 * height) * (1 # 2))%Q).
  { apply dadd_half_exact; [|nia].
    rewrite Hby, !inject_Z_plus, inject_Z_mult.
    change (inject_Z 2) with 2%Q. field. }
  assert (Hy0 : (dsub (dadd by_ (inject_Z height)) (inject_Z (h ft))
                 == inject_Z (b + 2 * (height - h ft)) * (1 # 2))%Q).
  { apply dsub_half_exact; [|nia].
    rewrite Hsum. unfold Zminus.
    rewrite !inject_Z_plus, !inject_Z_mult, inject_Z_plus, inject_Z_opp.
    change (inject_Z 2) with 2%Q. field. }
  destruct (text_loop_lines G ft width c bx by_ (S (length text)) text
              (dsub (dadd by_ (inject_Z height)) (inject_Z (h ft)))
              b (2 * (height - h ft)) s0 k Hby Hy0 ltac:(lia) Hk
              ltac:(nia))
    as (tr & Hrun & Hall & Hcut).
  unfold gl_printTextRaw. fold ft. cbv zeta.
  unfold gl_bind. rewrite Hrun. unfold gl_ret. cbn [snd]. split.
  - intros Hdrawn.
    destruct (Z.le_gt_cases (h ft * (3 * k - 1)) (2 * height))
      as [Hfit|Hshort]; [exact Hfit|].
    assert (Hlow : 2 * (height - h ft) - 3 * h ft * (k - 1) < 0) by nia.
    specialize (Hcut Hlow). lia.
  - intros Hfit. apply Hall; [exact Hh | nia].
Qed.

(** X14: In a box on half pixels, and with a line height that is not
    negative, gl_printTextRaw draws all [k] lines of a text exactly when
    the box is at least [h * (3k - 1) / 2] high: one line height for the
    last line and one and a half for each line before it. *)
Theorem gl_printTextRaw_draws_all_lines_iff
    (G : Globals) (ft_font : option glFont) (width height : Z) (bx by_ : Q)
    (c : option glColour) (text : cstring) (s0 : Z) (k : Z) :
  0 <= h (font_or_default G ft_font) ->
  wrapped_lines G (font_or_default G ft_font) width text k ->
  half_pixel_box by_ height (h (font_or_default G ft_font)) k ->
  (Z.of_nat (pushes (snd (gl_printTextRaw G ft_font width height bx by_ c
                            text s0 []))) = k
   <-> h (font_or_default G ft_font) * (3 * k - 1) <= 2 * height).
Proof.
  intros Hh Hk Hbox.
  apply gl_printTextRaw_run_iff_aux; assumption.
Qed.

Lemma gl_printTextRaw_draws_all_lines_iff_witness :
  0 <= h (font_or_default G0 None) /\
  wrapped_lines G0 (font_or_default G0 None) 35 (c_str "abc def") 2 /\
  half_pixel_box 0 30 (h (font_or_default G0 None)) 2 /\
  (Z.of_nat (pushes (snd (gl_printTextRaw G0 None 35 30 0 0 None
                            (c_str "abc def") 0 []))) = 2
   <-> h (font_or_default G0 None) * (3 * 2 - 1) <= 2 * 30).
Proof.
  assert (Hh : 0 <= h (font_or_default G0 None)) by (vm_compute; discriminate).
  assert (Hk : wrapped_lines G0 (font_or_default G0 None) 35
                 (c_str "abc def") 2).
  { apply (lines_next G0 (font_or_default G0 None) 35 (c_str "abc def") 1).
    - vm_compute. discriminate.
    - apply lines_last. reflexivity. }
  assert (Hbox : half_pixel_box 0 30 (h (font_or_default G0 None)) 2)
    by (exists 0; split; [reflexivity | vm_compute; reflexivity]).
  split; [exact Hh|]. split; [exact Hk|]. split; [exact Hbox|].
  exact (gl_printTextRaw_draws_all_lines_iff G0 None 35 30 0 0 None
           (c_str "abc def") 0 2 Hh Hk Hbox).
Defined.

(** The value of gl_printHeightRaw as an integer quotient. *)
Lemma gl_printHeightRaw_quot
    (G : Globals) (ft_font : option glFont) (width : Z) (text : cstring)
    (k : Z) :
  text_at text 0 <> NUL ->
  wrapped_lines G (font_or_default G ft_font) width text k ->
  gl_printHeightRaw G ft_font width text
    = Some (Z.quot (h (font_or_default G ft_font) * (3 * k - 1)) 2).
Proof.
  intros Hne Hk. unfold gl_printHeightRaw.
  set (ft := font_or_default G ft_font) in *.
  destruct (Z.eqb_spec (text_at text 0) NUL) as [|_]; [contradiction|].
  destruct (height_loop_lines G ft width (S (length text)) text 0%Q
              ltac:(lia)) as (k' & y' & Hk1 & Hlines & Hrun & Hy).
  rewrite (wrapped_lines_unique G ft width text k k' Hk Hlines).
  rewrite Hrun. f_equal.
  rewrite <- int_of_double_half. apply int_of_double_comp.
  rewrite Hy. unfold Qeq, Qminus, Qplus, Qmult, Qopp, inject_Z.
  cbn [Qnum Qden]. rewrite ?Pos2Z.inj_mul. ring.
Qed.

(** X15: Measuring and drawing a block do not always agree.  In a box on
    half pixels whose height is what gl_printHeightRaw returns for the
    text, gl_printTextRaw draws every line exactly when [h * (3k - 1)] is
    even: when it is odd the measured height was truncated by half a pixel
    and the last line is left out. *)
Theorem gl_printTextRaw_in_measured_box
    (G : Globals) (ft_font : option glFont) (width : Z) (bx by_ : Q)
    (c : option glColour) (text : cstring) (s0 : Z) (k H : Z) :
  0 <= h (font_or_default G ft_font) ->
  text_at text 0 <> NUL ->
  wrapped_lines G (font_or_default G ft_font) width text k ->
  gl_printHeightRaw G ft_font width text = Some H ->
  half_pixel_box by_ H (h (font_or_default G ft_font)) k ->
  (Z.of_nat (pushes (snd (gl_printTextRaw G ft_font width H bx by_ c
                            text s0 []))) = k
   <-> Z.even (h (font_or_default G ft_font) * (3 * k - 1)) = true).
Proof.
  intros Hh Hne Hk HH Hbox.
  rewrite (gl_printTextRaw_run_iff_aux G ft_font width H bx by_ c
             text s0 k Hh Hk Hbox).
  rewrite (gl_printHeightRaw_quot G ft_font width text k Hne Hk) in HH.
  assert (HHeq : H = Z.quot (h (font_or_default G ft_font) * (3 * k - 1)) 2)
    by congruence.
  clear HH Hbox. subst H.
  pose proof (wrapped_lines_pos _ _ _ _ _ Hk) as Hk1.
  set (m := h (font_or_default G ft_font) * (3 * k - 1)) in *.
  assert (Hm : 0 <= m) by (unfold m; nia).
  rewrite (Z.quot_div_nonneg m 2) by lia.
  rewrite Z.even_spec. split.
  - intros Hfit. exists (m / 2).
    pose proof (Z.div_mod m 2 ltac:(lia)) as Hdm.
    pose proof (Z.mod_pos_bound m 2 ltac:(lia)) as Hmod. lia.
  - intros (q & Hq). rewrite Hq.
    replace (2 * q) with (q * 2) by lia. rewrite Z.div_mul by lia. lia.
Qed.

Lemma gl_printTextRaw_in_measured_box_witness :
  0 <= h (font_or_default G0 None) /\
  text_at (c_str "abc def") 0 <> NUL /\
  wrapped_lines G0 (font_or_default G0 None) 35 (c_str "abc def") 2 /\
  gl_printHeightRaw G0 None 35 (c_str "abc def") = Some 30 /\
  half_pixel_box 0 30 (h (font_or_default G0 None)) 2 /\
  (Z.of_nat (pushes (snd (gl_printTextRaw G0 None 35 30 0 0 None
                            (c_str "abc def") 0 []))) = 2
   <-> Z.even (h (font_or_default G0 None) * (3 * 2 - 1)) = true).
Proof.
  assert (Hh : 0 <= h (font_or_default G0 None)) by (vm_compute; discriminate).
  assert (Hne : text_at (c_str "abc def") 0 <> NUL)
    by (vm_compute; discriminate).
  assert (Hk : wrapped_lines G0 (font_or_default G0 None) 35
                 (c_str "abc def") 2).
  { apply (lines_next G0 (font_or_default G0 None) 35 (c_str "abc def") 1).
    - vm_compute. discriminate.
    - apply lines_last. reflexivity. }
  assert (HH : gl_printHeightRaw G0 None 35 (c_str "abc def") = Some 30)
    by reflexivity.
  assert (Hbox : half_pixel_box 0 30 (h (font_or_default G0 None)) 2)
    by (exists 0; split; [reflexivity | vm_compute; reflexivity]).
  split; [exact Hh|]. split; [exact Hne|]. split; [exact Hk|].
  split; [exact HH|]. split; [exact Hbox|].
  exact (gl_printTextRaw_in_measured_box G0 None 35 0 0 None
           (c_str "abc def") 0 2 30 Hh Hne Hk HH Hbox).
Defined.

(** ** gl_printMidRaw and the matrix stack *)

Lemma gl_printMidRaw_trace (G : Globals) (ft_font : option glFont)
    (width : Z) (x y : Q) (c : option glColour) (text : option cstring)
    (s0 n0 : Z) :
  let ft := font_or_default G ft_font in
  let ret := fst (font_limitSize ft (Some n0) text width) in
  let n := match snd (font_limitSize ft (Some n0) text width) with
           | Some v => v
           | None => n0
           end in
  snd (gl_printMidRaw G ft_font width x y c text s0 n0 []) =
  snd (gl_fontRenderStart G ft (dadd x (inject_Z (width - n) / 2)) y c [])
  ++ snd (render_loop G ft c (text_or_nil text) 0 ret s0 [])
  ++ snd (gl_fontRenderEnd []).
Proof.
  intros ft ret n. unfold gl_printMidRaw. fold ft. subst ret n.
  destruct (font_limitSize ft (Some n0) text width) as [ret wr].
  cbn [fst snd]. split_bind. f_equal.
  match goal with
  | |- snd (gl_bind ?m ?k []) = _ =>
      rewrite (bind_trace m k) by solve_appends
  end.
  cbn [snd app]. reflexivity.
Qed.

Section ExactRender.

Variable G : Globals.
Variable ft : glFont.
Variable c : option glColour.

(** Outside escape sequences the for loop of the truncating drivers draws
    the quad of every character it is given and moves the matrix by the
    sum of their advances. *)
Lemma render_loop_exact (text : cstring) (ret : Z) :
  forall i s,
    s <> 1 ->
    ~ In ESC (firstn (Z.to_nat (ret - i)) text) ->
    quads (snd (render_loop G ft c text i ret s []))
      = map glyph_quad (firstn (Z.to_nat (ret - i)) text) /\
    (pen_dx (snd (render_loop G ft c text i ret s []))
       == inject_Z (adv_sum ft (firstn (Z.to_nat (ret - i)) text)))%Q.
Proof.
  induction text as [|ch rest IH]; intros i s Hs Hfree.
  - rewrite firstn_nil. simpl. split; reflexivity.
  - cbn [render_loop]. destruct (Z.ltb_spec i ret) as [Hlt|Hge].
    + rewrite firstn_cons_Z in Hfree |- * by exact Hlt.
      assert (Hch : ch <> ESC) by (intros ->; apply Hfree; left; reflexivity).
      rewrite (bind_trace _ _ (appends_gl_fontRenderCharacter G ft ch c s)
                 (fun s1 => appends_render_loop G ft c rest ret (i + 1) s1)).
      rewrite (render_char_normal G ft c ch s Hch Hs). cbn [fst snd app].
      destruct (IH (i + 1) 0 ltac:(lia)
                  (fun Hin => Hfree (or_intror Hin))) as (Hq & Hp).
      split.
      * cbn [quads map]. rewrite Hq. reflexivity.
      * cbn [pen_dx fold_right call_dx adv_sum].
        fold (pen_dx (snd (render_loop G ft c rest (i + 1) ret 0 []))).
        rewrite Hp. unfold char_adv. rewrite inject_Z_plus. ring.
    + replace (Z.to_nat (ret - i)) with 0%nat by lia. simpl.
      split; reflexivity.
Qed.

End ExactRender.

(** X11: gl_printMidRaw draws what font_limitSize measured, centred: for a text
    without escape sequences (and [s] not starting as 1) it draws the
    quads of the [count] characters that fit, starting half of the unused
    width [(width - n) / 2] to the right of [x] (the double sum, then the
    double difference with half the screen width, then [round]), and moves
    the matrix by exactly the fitted width [n]. *)
Theorem gl_printMidRaw_centres_fitted_text
    (G : Globals) (ft_font : option glFont) (width : Z) (x y : Q)
    (c : option glColour) (text : cstring) (s0 n0 : Z) :
  escape_free text ->
  s0 <> 1 ->
  let ft := font_or_default G ft_font in
  let tr := snd (gl_printMidRaw G ft_font width x y c (Some text) s0 n0 []) in
  exists count n,
    font_limitSize ft (Some n0) (Some text) width = (count, Some n) /\
    quads tr = map glyph_quad (prefix text count) /\
    (pen_dx tr
       == inject_Z (c_round (dsub (dadd x (inject_Z (width - n) / 2))
                                   (inject_Z (SCREEN_W G) / 2)))
          + inject_Z n)%Q.
Proof.
  intros Hfree Hs ft tr. subst tr.
  rewrite gl_printMidRaw_trace. fold ft.
  destruct (limit_loop_spec ft text width 0 0) as (k & Hk & Heq & _ & _).
  assert (Hfl : font_limitSize ft (Some n0) (Some text) width
                = (Z.of_nat k, Some (adv_sum ft (firstn k (str_chars text))))).
  { unfold font_limitSize. rewrite Heq. reflexivity. }
  rewrite !Hfl. cbn [fst snd text_or_nil].
  exists (Z.of_nat k), (adv_sum ft (firstn k (str_chars text))).
  split; [reflexivity|].
  assert (Hfree' : ~ In ESC (firstn (Z.to_nat (Z.of_nat k - 0)) text)).
  { replace (Z.to_nat (Z.of_nat k - 0)) with k by lia.
    rewrite firstn_str_chars by exact Hk.
    intros Hin. apply Hfree. eapply In_firstn_In; eassumption. }
  destruct (render_loop_exact G ft c text (Z.of_nat k) 0 s0 Hs Hfree')
    as (Hq & Hp).
  replace (Z.to_nat (Z.of_nat k - 0)) with k in Hq, Hp by lia.
  rewrite firstn_str_chars in Hq, Hp by exact Hk.
  split.
  - rewrite !quads_app, Hq, gl_fontRenderStart_trace, gl_fontRenderEnd_trace.
    unfold prefix. rewrite Nat2Z.id.
    destruct c; simpl; rewrite app_nil_r; reflexivity.
  - rewrite !pen_dx_app, pen_dx_start, pen_dx_end, Hp. ring.
Qed.

Lemma gl_printMidRaw_centres_fitted_text_witness :
  escape_free (c_str "abcde") /\
  0 <> 1 /\
  let ft := font_or_default G0 None in
  let tr := snd (gl_printMidRaw G0 None 25 400 300 None
                   (Some (c_str "abcde")) 0 0 []) in
  exists count n,
    font_limitSize ft (Some 0) (Some (c_str "abcde")) 25 = (count, Some n) /\
    quads tr = map glyph_quad (prefix (c_str "abcde") count) /\
    (pen_dx tr
       == inject_Z (c_round (dsub (dadd 400 (inject_Z (25 - n) / 2))
                                   (inject_Z (SCREEN_W G0) / 2)))
          + inject_Z n)%Q.
Proof.
  assert (Hfree : escape_free (c_str "abcde")).
  { unfold escape_free. vm_compute. intuition discriminate. }
  assert (Hs : 0 <> 1) by discriminate.
  split; [exact Hfree|]. split; [exact Hs|].
  exact (gl_printMidRaw_centres_fitted_text G0 None 25 400 300 None
           (c_str "abcde") 0 0 Hfree Hs).
Defined.

(** X12: Every driver leaves the matrix stack as it found it: gl_printRaw,
    gl_printMaxRaw and gl_printMidRaw push once and pop once, whatever the
    text holds. *)
Theorem drivers_push_once_pop_once
    (G : Globals) (ft_font : option glFont) (x y : Q) (c : option glColour)
    (s0 : Z) :
  (forall text,
     pushes (snd (gl_printRaw G ft_font x y c text s0 [])) = 1%nat /\
     pops (snd (gl_printRaw G ft_font x y c text s0 [])) = 1%nat) /\
  (forall max text,
     pushes (snd (gl_printMaxRaw G ft_font max x y c text s0 [])) = 1%nat /\
     pops (snd (gl_printMaxRaw G ft_font max x y c text s0 [])) = 1%nat) /\
  (forall width text n0,
     pushes (snd (gl_printMidRaw G ft_font width x y c text s0 n0 []))
       = 1%nat /\
     pops (snd (gl_printMidRaw G ft_font width x y c text s0 n0 []))
       = 1%nat).
Proof.
  split; [|split].
  - intros text. rewrite gl_printRaw_trace.
    destruct (glyph_calls_no_push _
                (render_all_calls G (font_or_default G ft_font) c text s0))
      as (Hpu & Hpo).
    rewrite !pushes_app, !pops_app, Hpu, Hpo.
    rewrite gl_fontRenderStart_trace, gl_fontRenderEnd_trace.
    destruct c; split; reflexivity.
  - intros max text. rewrite gl_printMaxRaw_trace.
    apply line_pushes.
  - intros width text n0. rewrite gl_printMidRaw_trace.
    apply line_pushes.
Qed.

(** ** font_genTextureAtlas: measuring, fitting and placing *)

Lemma measure_fold (chars : list Atlas.font_char_t) :
  forall t,
    let r := fold_left Atlas.measure_step chars t in
    Atlas.max_h t <= Atlas.max_h r /\
    (forall c, In c chars -> Atlas.h c <= Atlas.max_h r) /\
    Atlas.total_w r = Atlas.total_w t + sum_w chars.
Proof.
  induction chars as [|c rest IH]; intros t r.
  - subst r. simpl. split; [lia|]. split; [intros c []|lia].
  - subst r. cbn [fold_left sum_w fold_right].
    destruct (IH (Atlas.measure_step t c)) as (Hmax & Hall & Htot).
    assert (Hstep : Atlas.max_h t <= Atlas.max_h (Atlas.measure_step t c) /\
                    Atlas.h c <= Atlas.max_h (Atlas.measure_step t c)).
    { unfold Atlas.measure_step. cbn [Atlas.max_h].
      destruct (Z.gtb_spec (Atlas.h c) (Atlas.max_h t)); lia. }
    split; [lia|]. split.
    + intros c' [<-|Hin]; [lia | apply Hall; exact Hin].
    + rewrite Htot. unfold Atlas.measure_step. cbn [Atlas.total_w].
      fold (sum_w rest). lia.
Qed.

(** X16: The first loop of font_genTextureAtlas: [total_w] is the sum of the
    glyph widths, and [max_h] is not negative and bounds the height of
    every glyph. *)
Theorem atlas_measure_totals (chars : list Atlas.font_char_t) :
  Atlas.total_w (Atlas.measure chars) = sum_w chars /\
  0 <= Atlas.max_h (Atlas.measure chars) /\
  (forall c, In c chars -> Atlas.h c <= Atlas.max_h (Atlas.measure chars)).
Proof.
  unfold Atlas.measure.
  destruct (measure_fold chars (Atlas.mk_totals 0 0 0 0)) as (Hmax & Hall & Htot).
  cbn [Atlas.max_h Atlas.total_w] in Hmax, Htot.
  split; [lia|]. split; [exact Hmax | exact Hall].
Qed.

Section Placing.

Variable G : Globals.
Variable maxh : Z.
Variable wt : Z.

Hypothesis maxh_nonneg : 0 <= maxh.

(** Where the placing loop puts the glyphs, seen from its start state. *)
Lemma place_loop_positions (chars : list Atlas.font_char_t) (ht : Z) :
  forall x_off y_off,
    (forall c, In c chars -> 0 <= Atlas.w c) ->
    0 <= x_off ->
    forall p, In p (AtlasFill.place_loop chars maxh wt ht x_off y_off) ->
      ((AtlasFill.at_y p = y_off /\ x_off <= AtlasFill.at_x p) \/
       y_off + maxh <= AtlasFill.at_y p) /\
      0 <= AtlasFill.at_x p /\
      y_off <= AtlasFill.at_y p /\
      In (AtlasFill.glyph p) chars /\
      (Atlas.w (AtlasFill.glyph p) <= wt ->
       AtlasFill.at_x p + Atlas.w (AtlasFill.glyph p) <= wt).
Proof.
  induction chars as [|c rest IH]; intros x_off y_off Hw Hx p Hin;
    [contradiction|].
  assert (Hwc : 0 <= Atlas.w c) by (apply Hw; left; reflexivity).
  assert (Hwrest : forall c', In c' rest -> 0 <= Atlas.w c')
    by (intros; apply Hw; right; assumption).
  cbn [AtlasFill.place_loop] in Hin.
  destruct (Z.geb_spec (x_off + Atlas.w c) wt) as [Hwrap|Hstay].
  - destruct Hin as [<-|Hin].
    + cbn [AtlasFill.at_x AtlasFill.at_y AtlasFill.glyph].
      split; [right; lia|]. split; [lia|]. split; [lia|].
      split; [left; reflexivity | lia].
    + destruct (IH (0 + Atlas.w c) (y_off + maxh) Hwrest ltac:(lia) p Hin)
        as (Hpos & Hx0 & Hy0 & Hg & Hfit).
      split; [right; lia|]. split; [lia|]. split; [lia|].
      split; [right; exact Hg | exact Hfit].
  - destruct Hin as [<-|Hin].
    + cbn [AtlasFill.at_x AtlasFill.at_y AtlasFill.glyph].
      split; [left; lia|]. split; [lia|]. split; [lia|].
      split; [left; reflexivity | lia].
    + destruct (IH (x_off + Atlas.w c) y_off Hwrest ltac:(lia) p Hin)
        as (Hpos & Hx0 & Hy0 & Hg & Hfit).
      split; [destruct Hpos as [(Hy & Hxx)|Hlater]; [left; lia | right; lia]|].
      split; [lia|]. split; [lia|].
      split; [right; exact Hg | exact Hfit].
Qed.

(** Glyphs are placed apart from every glyph placed before them. *)
Lemma place_loop_separated (chars : list Atlas.font_char_t) (ht : Z) :
  forall x_off y_off,
    (forall c, In c chars -> 0 <= Atlas.w c) ->
    0 <= x_off ->
    ForallOrdPairs (separated maxh)
      (AtlasFill.place_loop chars maxh wt ht x_off y_off).
Proof.
  induction chars as [|c rest IH]; intros x_off y_off Hw Hx;
    [constructor|].
  assert (Hwc : 0 <= Atlas.w c) by (apply Hw; left; reflexivity).
  assert (Hwrest : forall c', In c' rest -> 0 <= Atlas.w c')
    by (intros; apply Hw; right; assumption).
  cbn [AtlasFill.place_loop].
  destruct (Z.geb_spec (x_off + Atlas.w c) wt) as [Hwrap|Hstay].
  - constructor; [|apply IH; [exact Hwrest | lia]].
    apply Forall_forall. intros q Hq.
    destruct (place_loop_positions rest ht (0 + Atlas.w c) (y_off + maxh)
                Hwrest ltac:(lia) q Hq) as (Hpos & _).
    unfold separated. cbn [AtlasFill.at_x AtlasFill.at_y AtlasFill.glyph].
    destruct Hpos as [(Hy & Hxx)|Hlater]; [left; lia | right; lia].
  - constructor; [|apply IH; [exact Hwrest | lia]].
    apply Forall_forall. intros q Hq.
    destruct (place_loop_positions rest ht (x_off + Atlas.w c) y_off
                Hwrest ltac:(lia) q Hq) as (Hpos & _).
    unfold separated. cbn [AtlasFill.at_x AtlasFill.at_y AtlasFill.glyph].
    destruct Hpos as [(Hy & Hxx)|Hlater]; [left; lia | right; lia].
Qed.

Hypothesis pot_grows : forall v, v <= gl_pot G v.

Lemma pot_le (v : Z) : v <= Atlas.pot G v.
Proof. unfold Atlas.pot. destruct (gl_needPOT G); [apply pot_grows | lia]. Qed.

(** The test fit and the placing loop walk the same rows: with the height
    the test fit ends with, the placing loop never finds a row that
    reaches the bottom of the texture. *)
Lemma fit_then_place (chars : list Atlas.font_char_t) :
  forall x_off y_off ht,
    y_off + maxh < ht ->
    let ht' := snd (Atlas.fit_loop G chars maxh wt x_off y_off ht) in
    ht <= ht' /\
    forall p, In p (AtlasFill.place_loop chars maxh wt ht' x_off y_off) ->
      AtlasFill.warned p = false /\ AtlasFill.at_y p + maxh < ht'.
Proof.
  induction chars as [|c rest IH]; intros x_off y_off ht Hinv ht'.
  - subst ht'. simpl. split; [lia | intros p []].
  - subst ht'. cbn [Atlas.fit_loop AtlasFill.place_loop].
    destruct (Z.geb_spec (x_off + Atlas.w c) wt) as [Hwrap|Hstay].
    + set (ht1 := if y_off + maxh + maxh >=? ht
                  then Atlas.pot G (ht + maxh) else ht).
      assert (Hht1 : ht <= ht1 /\ y_off + maxh + maxh < ht1).
      { unfold ht1.
        destruct (Z.geb_spec (y_off + maxh + maxh) ht) as [Hgrow|Hok].
        - pose proof (pot_le (ht + maxh)). lia.
        - lia. }
      destruct (IH (0 + Atlas.w c) (y_off + maxh) ht1 ltac:(lia))
        as (Hle & Hall).
      split; [lia|].
      intros p [<-|Hin]; [|apply Hall; exact Hin].
      cbn [AtlasFill.warned AtlasFill.at_y].
      split; [|lia].
      destruct (Z.geb_spec (y_off + maxh + maxh)
                  (snd (Atlas.fit_loop G rest maxh wt (0 + Atlas.w c)
                          (y_off + maxh) ht1))); [lia | reflexivity].
    + destruct (IH (x_off + Atlas.w c) y_off ht Hinv) as (Hle & Hall).
      split; [lia|].
      intros p [<-|Hin]; [|apply Hall; exact Hin].
      cbn [AtlasFill.warned AtlasFill.at_y]. split; [reflexivity | lia].
Qed.

End Placing.

Lemma atlas_size_eq (G : Globals) (chars : list Atlas.font_char_t) :
  let t := Atlas.measure chars in
  let n := Atlas.rows_estimate (Atlas.total_w t) (Atlas.max_h t) in
  let wt := Atlas.pot G (Z.quot (Atlas.total_w t) n + 1) in
  Atlas.atlas_size G chars =
  (wt, snd (Atlas.fit_loop G chars (Atlas.max_h t) wt 0 0
              (Atlas.pot G (Atlas.max_h t * n + 1)))).
Proof.
  intros t n wt. unfold Atlas.atlas_size, Atlas.estimate. fold t. fold n.
  fold wt.
  destruct (Atlas.fit_loop G chars (Atlas.max_h t) wt 0 0
              (Atlas.pot G (Atlas.max_h t * n + 1))) as [[a b] h2].
  reflexivity.
Qed.

Lemma rows_estimate_pos (tw mh : Z) :
  0 < tw -> 0 < mh -> 1 <= Atlas.rows_estimate tw mh.
Proof.
  intros Htw Hmh.
  destruct (rows_estimate_spec tw mh ltac:(lia) Hmh) as (Hn & Hcap & _).
  nia.
Qed.

(** X17: The estimate leaves room: when some glyph has ink, the estimated
    number of rows is at least 1, that many rows of the estimated width
    hold more than the total width, and the estimated height exceeds that
    many rows of the tallest glyph. *)
Theorem atlas_estimate_has_room (t : Atlas.totals) :
  0 < Atlas.total_w t ->
  0 < Atlas.max_h t ->
  let '(n, w0, h0) := Atlas.estimate t in
  1 <= n /\
  Atlas.total_w t < n * w0 /\
  Atlas.max_h t * n < h0.
Proof.
  intros Htw Hmh. unfold Atlas.estimate.
  pose proof (rows_estimate_pos _ _ Htw Hmh) as Hn.
  set (n := Atlas.rows_estimate (Atlas.total_w t) (Atlas.max_h t)) in *.
  split; [exact Hn|]. split; [|lia].
  rewrite Z.quot_div_nonneg by lia.
  pose proof (Z.div_mod (Atlas.total_w t) n ltac:(lia)) as Hdm.
  pose proof (Z.mod_pos_bound (Atlas.total_w t) n ltac:(lia)) as Hmod.
  nia.
Qed.

Lemma atlas_estimate_has_room_witness :
  0 < Atlas.total_w (Atlas.measure glyphs_5x9) /\
  0 < Atlas.max_h (Atlas.measure glyphs_5x9) /\
  let '(n, w0, h0) := Atlas.estimate (Atlas.measure glyphs_5x9) in
  1 <= n /\
  Atlas.total_w (Atlas.measure glyphs_5x9) < n * w0 /\
  Atlas.max_h (Atlas.measure glyphs_5x9) * n < h0.
Proof.
  split; [reflexivity|]. split; [reflexivity|].
  apply (atlas_estimate_has_room (Atlas.measure glyphs_5x9)); reflexivity.
Defined.

(** What the placing loop guarantees for the texture font_genTextureAtlas
    allocates. *)
Lemma placements_facts (G : Globals) (chars : list Atlas.font_char_t) :
  (forall v, v <= gl_pot G v) ->
  0 < Atlas.total_w (Atlas.measure chars) ->
  0 < Atlas.max_h (Atlas.measure chars) ->
  forall p, In p (AtlasFill.placements G chars) ->
    AtlasFill.warned p = false /\
    AtlasFill.at_y p + Atlas.max_h (Atlas.measure chars)
      < snd (Atlas.atlas_size G chars) /\
    1 <= fst (Atlas.atlas_size G chars).
Proof.
  intros Hpot Htw Hmh p Hin.
  unfold AtlasFill.placements in Hin.
  rewrite atlas_size_eq in Hin |- *. cbv zeta in Hin |- *.
  cbn [fst snd].
  set (t := Atlas.measure chars) in *.
  pose proof (rows_estimate_pos _ _ Htw Hmh) as Hn.
  set (n := Atlas.rows_estimate (Atlas.total_w t) (Atlas.max_h t)) in *.
  set (wt := Atlas.pot G (Z.quot (Atlas.total_w t) n + 1)) in *.
  assert (Hh0 : 0 + Atlas.max_h t < Atlas.pot G (Atlas.max_h t * n + 1)).
  { pose proof (pot_le G Hpot (Atlas.max_h t * n + 1)). nia. }
  destruct (fit_then_place G (Atlas.max_h t) wt Hpot chars 0 0 _ Hh0)
    as (_ & Hall).
  destruct (Hall p Hin) as (Hwarn & Hrow).
  split; [exact Hwarn|]. split; [exact Hrow|].
  pose proof (pot_le G Hpot (Z.quot (Atlas.total_w t) n + 1)) as Hw.
  fold wt in Hw.
  rewrite Z.quot_div_nonneg in Hw by lia.
  pose proof (Z.div_pos (Atlas.total_w t) n ltac:(lia) ltac:(lia)). lia.
Qed.

(** X18: The test fit does its job: in the texture font_genTextureAtlas
    allocates, the placing loop never reports "Font is still too small",
    and every row a glyph is placed in ends above the bottom of the
    texture.  [gl_pot] is only asked not to shrink its argument. *)
Theorem atlas_placing_never_warns
    (G : Globals) (chars : list Atlas.font_char_t) :
  (forall v, v <= gl_pot G v) ->
  0 < Atlas.total_w (Atlas.measure chars) ->
  0 < Atlas.max_h (Atlas.measure chars) ->
  forall p, In p (AtlasFill.placements G chars) ->
    AtlasFill.warned p = false /\
    AtlasFill.at_y p + Atlas.max_h (Atlas.measure chars)
      < snd (Atlas.atlas_size G chars).
Proof.
  intros Hpot Htw Hmh p Hin.
  destruct (placements_facts G chars Hpot Htw Hmh p Hin) as (Hw & Hrow & _).
  split; assumption.
Qed.

Lemma glyphs_5x9_in (c : Atlas.font_char_t) :
  In c glyphs_5x9 -> c = Atlas.mk_char 5 9 0 9 6 0.
Proof. intros Hin. apply repeat_spec in Hin. exact Hin. Qed.

Lemma G0_pot (v : Z) : v <= gl_pot G0 v.
Proof. simpl. lia. Qed.

Lemma placements_5x9_first :
  In (AtlasFill.mk_placement (Atlas.mk_char 5 9 0 9 6 0) 0 0 false)
     (AtlasFill.placements G0 glyphs_5x9).
Proof. vm_compute. left. reflexivity. Qed.

Lemma atlas_placing_never_warns_witness :
  (forall v, v <= gl_pot G0 v) /\
  0 < Atlas.total_w (Atlas.measure glyphs_5x9) /\
  0 < Atlas.max_h (Atlas.measure glyphs_5x9) /\
  In (AtlasFill.mk_placement (Atlas.mk_char 5 9 0 9 6 0) 0 0 false)
     (AtlasFill.placements G0 glyphs_5x9) /\
  AtlasFill.warned
    (AtlasFill.mk_placement (Atlas.mk_char 5 9 0 9 6 0) 0 0 false) = false /\
  AtlasFill.at_y
    (AtlasFill.mk_placement (Atlas.mk_char 5 9 0 9 6 0) 0 0 false)
    + Atlas.max_h (Atlas.measure glyphs_5x9)
    < snd (Atlas.atlas_size G0 glyphs_5x9).
Proof.
  split; [exact G0_pot|]. split; [reflexivity|]. split; [reflexivity|].
  split; [exact placements_5x9_first|].
  exact (atlas_placing_never_warns G0 glyphs_5x9 G0_pot eq_refl eq_refl
           _ placements_5x9_first).
Defined.

(** X19: No write outside the texture: when no glyph is wider than the
    texture, every pixel of every glyph is written at an index inside the
    buffer of [w * h * 2] bytes that [calloc] returned. *)
Theorem atlas_writes_stay_in_buffer
    (G : Globals) (chars : list Atlas.font_char_t) :
  (forall v, v <= gl_pot G v) ->
  0 < Atlas.total_w (Atlas.measure chars) ->
  0 < Atlas.max_h (Atlas.measure chars) ->
  (forall c, In c chars ->
     0 <= Atlas.w c <= fst (Atlas.atlas_size G chars)) ->
  forall p x y,
    In p (AtlasFill.placements G chars) ->
    0 <= x < Atlas.w (AtlasFill.glyph p) ->
    0 <= y < Atlas.h (AtlasFill.glyph p) ->
    let wt := fst (Atlas.atlas_size G chars) in
    let ht := snd (Atlas.atlas_size G chars) in
    0 <= AtlasFill.pixel_offset wt p x y * 2 /\
    AtlasFill.pixel_offset wt p x y * 2 + 1 < wt * ht * 2.
Proof.
  intros Hpot Htw Hmh Hw p x y Hin Hx Hy wt ht.
  destruct (placements_facts G chars Hpot Htw Hmh p Hin)
    as (_ & Hrow & Hwt).
  fold ht in Hrow. fold wt in Hwt.
  destruct (measure_fold chars (Atlas.mk_totals 0 0 0 0)) as (_ & Hmaxh & _).
  fold (Atlas.measure chars) in Hmaxh.
  unfold AtlasFill.placements in Hin.
  destruct (Atlas.atlas_size G chars) as [wt0 ht0] eqn:Hsize.
  cbn [fst snd] in *. subst wt ht.
  destruct (place_loop_positions (Atlas.max_h (Atlas.measure chars)) wt0
              ltac:(lia) chars ht0 0 0
              (fun c Hc => proj1 (Hw c Hc)) ltac:(lia) p Hin)
    as (_ & Hx0 & Hy0 & Hg & Hfit).
  specialize (Hfit (proj2 (Hw _ Hg))).
  specialize (Hmaxh _ Hg).
  unfold AtlasFill.pixel_offset. split; nia.
Qed.

Lemma atlas_writes_stay_in_buffer_witness :
  (forall v, v <= gl_pot G0 v) /\
  0 < Atlas.total_w (Atlas.measure glyphs_5x9) /\
  0 < Atlas.max_h (Atlas.measure glyphs_5x9) /\
  (forall c, In c glyphs_5x9 ->
     0 <= Atlas.w c <= fst (Atlas.atlas_size G0 glyphs_5x9)) /\
  In (AtlasFill.mk_placement (Atlas.mk_char 5 9 0 9 6 0) 0 0 false)
     (AtlasFill.placements G0 glyphs_5x9) /\
  0 <= 4 < 5 /\ 0 <= 8 < 9 /\
  0 <= AtlasFill.pixel_offset (fst (Atlas.atlas_size G0 glyphs_5x9))
         (AtlasFill.mk_placement (Atlas.mk_char 5 9 0 9 6 0) 0 0 false)
         4 8 * 2 /\
  AtlasFill.pixel_offset (fst (Atlas.atlas_size G0 glyphs_5x9))
    (AtlasFill.mk_placement (Atlas.mk_char 5 9 0 9 6 0) 0 0 false) 4 8 * 2 + 1
    < fst (Atlas.atlas_size G0 glyphs_5x9)
      * snd (Atlas.atlas_size G0 glyphs_5x9) * 2.
Proof.
  assert (Hw : forall c, In c glyphs_5x9 ->
             0 <= Atlas.w c <= fst (Atlas.atlas_size G0 glyphs_5x9)).
  { intros c Hc. rewrite (glyphs_5x9_in c Hc). vm_compute.
    split; discriminate. }
  split; [exact G0_pot|]. split; [reflexivity|]. split; [reflexivity|].
  split; [exact Hw|]. split; [exact placements_5x9_first|].
  split; [lia|]. split; [lia|].
  exact (atlas_writes_stay_in_buffer G0 glyphs_5x9 G0_pot eq_refl eq_refl Hw
           (AtlasFill.mk_placement (Atlas.mk_char 5 9 0 9 6 0) 0 0 false)
           4 8 placements_5x9_first ltac:(simpl; lia) ltac:(simpl; lia)).
Defined.

Lemma ForallOrdPairs_impl_in {A : Type} (R R' : A -> A -> Prop)
    (l : list A) :
  (forall p q, In p l -> In q l -> R p q -> R' p q) ->
  ForallOrdPairs R l -> ForallOrdPairs R' l.
Proof.
  intros Himpl Hfop.
  induction Hfop as [|p l Hall Hrest IH]; [constructor|].
  constructor.
  - apply Forall_forall. intros q Hq.
    apply Himpl; [left; reflexivity | right; exact Hq|].
    rewrite Forall_forall in Hall. apply Hall. exact Hq.
  - apply IH. intros p' q' Hp' Hq'.
    apply Himpl; right; assumption.
Qed.

(** The cells of any two placed glyphs are disjoint as rectangles. *)
Lemma placements_cells_disjoint
    (G : Globals) (chars : list Atlas.font_char_t) :
  (forall c, In c chars -> 0 <= Atlas.w c) ->
  ForallOrdPairs
    (fun p q => forall X Y, ~ (covers p X Y /\ covers q X Y))
    (AtlasFill.placements G chars).
Proof.
  intros Hw.
  destruct (measure_fold chars (Atlas.mk_totals 0 0 0 0)) as (Hm0 & Hmaxh & _).
  fold (Atlas.measure chars) in Hm0, Hmaxh. cbn [Atlas.max_h] in Hm0.
  unfold AtlasFill.placements.
  destruct (Atlas.atlas_size G chars) as [wt ht].
  apply (ForallOrdPairs_impl_in
           (separated (Atlas.max_h (Atlas.measure chars)))).
  - intros p q Hp Hq Hsep X Y ((Hpx & Hpy) & (Hqx & Hqy)).
    destruct (place_loop_positions (Atlas.max_h (Atlas.measure chars)) wt
                Hm0 chars ht 0 0 Hw ltac:(lia) p Hp)
      as (_ & _ & _ & Hg & _).
    specialize (Hmaxh _ Hg).
    destruct Hsep as [(Hy & Hx)|Hlater]; lia.
  - apply place_loop_separated; [exact Hm0 | exact Hw | lia].
Qed.

Lemma row_column_unique (wt a b a' b' : Z) :
  0 <= b < wt -> 0 <= b' < wt ->
  a * wt + b = a' * wt + b' -> a = a' /\ b = b'.
Proof.
  intros Hb Hb' Heq.
  destruct (Z.lt_trichotomy a a') as [Hlt|[Heqa|Hgt]].
  - exfalso. assert ((a + 1) * wt <= a' * wt) by nia. nia.
  - subst a'. split; [reflexivity | lia].
  - exfalso. assert ((a' + 1) * wt <= a * wt) by nia. nia.
Qed.

(** X20: No glyph overwrites another: when no glyph is wider than the texture,
    the pixels of two different glyphs are never written at the same
    index of the buffer. *)
Theorem atlas_glyphs_do_not_overwrite
    (G : Globals) (chars : list Atlas.font_char_t) :
  (forall c, In c chars ->
     0 <= Atlas.w c <= fst (Atlas.atlas_size G chars)) ->
  ForallOrdPairs
    (fun p q => forall x y x' y',
       0 <= x < Atlas.w (AtlasFill.glyph p) ->
       0 <= y < Atlas.h (AtlasFill.glyph p) ->
       0 <= x' < Atlas.w (AtlasFill.glyph q) ->
       0 <= y' < Atlas.h (AtlasFill.glyph q) ->
       AtlasFill.pixel_offset (fst (Atlas.atlas_size G chars)) p x y
         <> AtlasFill.pixel_offset (fst (Atlas.atlas_size G chars)) q x' y')
    (AtlasFill.placements G chars).
Proof.
  intros Hw.
  assert (Hw0 : forall c, In c chars -> 0 <= Atlas.w c)
    by (intros c Hc; apply Hw; exact Hc).
  pose proof (placements_cells_disjoint G chars Hw0) as Hcells.
  destruct (measure_fold chars (Atlas.mk_totals 0 0 0 0)) as (Hm0 & _ & _).
  fold (Atlas.measure chars) in Hm0. cbn [Atlas.max_h] in Hm0.
  refine (ForallOrdPairs_impl_in _ _ _ _ Hcells).
  intros p q Hp Hq Hdis x y x' y' Hx Hy Hx' Hy' Heq. cbv beta in Hdis.
  unfold AtlasFill.placements in Hp, Hq.
  destruct (Atlas.atlas_size G chars) as [wt ht]. cbn [fst] in *.
  destruct (place_loop_positions (Atlas.max_h (Atlas.measure chars)) wt
              Hm0 chars ht 0 0 Hw0 ltac:(lia) p Hp)
    as (_ & Hpx0 & _ & Hpg & Hpfit).
  destruct (place_loop_positions (Atlas.max_h (Atlas.measure chars)) wt
              Hm0 chars ht 0 0 Hw0 ltac:(lia) q Hq)
    as (_ & Hqx0 & _ & Hqg & Hqfit).
  specialize (Hpfit (proj2 (Hw _ Hpg))).
  specialize (Hqfit (proj2 (Hw _ Hqg))).
  unfold AtlasFill.pixel_offset in Heq.
  destruct (row_column_unique wt (AtlasFill.at_y p + y) (AtlasFill.at_x p + x)
              (AtlasFill.at_y q + y') (AtlasFill.at_x q + x')
              ltac:(lia) ltac:(lia) Heq)
    as (Hrow & Hcol).
  apply (Hdis (AtlasFill.at_x p + x) (AtlasFill.at_y p + y)).
  unfold covers. split; split; lia.
Qed.

Lemma atlas_glyphs_do_not_overwrite_witness :
  (forall c, In c glyphs_5x9 ->
     0 <= Atlas.w c <= fst (Atlas.atlas_size G0 glyphs_5x9)) /\
  ForallOrdPairs
    (fun p q => forall x y x' y',
       0 <= x < Atlas.w (AtlasFill.glyph p) ->
       0 <= y < Atlas.h (AtlasFill.glyph p) ->
       0 <= x' < Atlas.w (AtlasFill.glyph q) ->
       0 <= y' < Atlas.h (AtlasFill.glyph q) ->
       AtlasFill.pixel_offset (fst (Atlas.atlas_size G0 glyphs_5x9)) p x y
         <> AtlasFill.pixel_offset (fst (Atlas.atlas_size G0 glyphs_5x9))
              q x' y')
    (AtlasFill.placements G0 glyphs_5x9).
Proof.
  assert (Hw : forall c, In c glyphs_5x9 ->
             0 <= Atlas.w c <= fst (Atlas.atlas_size G0 glyphs_5x9)).
  { intros c Hc. rewrite (glyphs_5x9_in c Hc). vm_compute.
    split; discriminate. }
  split; [exact Hw|].
  exact (atlas_glyphs_do_not_overwrite G0 glyphs_5x9 Hw).
Defined.

(** A block of two lines in a font of height 13 measures
    [(int)(39 - 6.5) = 32]; in a box of that height the second line would
    start half a pixel below the box and is not drawn. *)
Lemma gl_printTextRaw_odd_height_example :
  gl_printHeightRaw G0 (Some font13) 35 (c_str "abc def") = Some 32 /\
  wrapped_lines G0 font13 35 (c_str "abc def") 2 /\
  pushes (snd (gl_printTextRaw G0 (Some font13) 35 32 0 0 None
                 (c_str "abc def") 0 [])) = 1%nat.
Proof.
  split; [reflexivity|]. split; [|reflexivity].
  apply (lines_next G0 font13 35 (c_str "abc def") 1).
  - vm_compute. discriminate.
  - apply lines_last. reflexivity.
Qed.

(** ** The vertex buffer and the indices of the renderer *)

Lemma vertex_coords_length (c : Atlas.font_char_t) :
  length (AtlasFill.vertex_coords c) = 8%nat.
Proof. reflexivity. Qed.

Lemma vertex_buffer_nth (chars : list Atlas.font_char_t)
    (dflt : Atlas.font_char_t) :
  forall i k,
    (i < length chars)%nat -> (k < 8)%nat ->
    nth (8 * i + k) (AtlasFill.vertex_buffer chars) 0
      = nth k (AtlasFill.vertex_coords (nth i chars dflt)) 0.
Proof.
  unfold AtlasFill.vertex_buffer.
  induction chars as [|c rest IH]; intros i k Hi Hk; [simpl in Hi; lia|].
  cbn [flat_map]. destruct i as [|i].
  - rewrite app_nth1 by (rewrite vertex_coords_length; lia). reflexivity.
  - rewrite app_nth2 by (rewrite vertex_coords_length; lia).
    rewrite vertex_coords_length.
    replace (8 * S i + k - 8)%nat with (8 * i + k)%nat by lia.
    cbn [nth]. apply IH; [simpl in Hi; lia | exact Hk].
Qed.

Lemma fetch_vertex_of_glyph (chars : list Atlas.font_char_t)
    (dflt : Atlas.font_char_t) (ch k : Z) :
  0 <= ch < Z.of_nat (length chars) ->
  0 <= k < 4 ->
  AtlasFill.fetch_vertex (AtlasFill.vertex_buffer chars) (4 * ch + k) =
  (nth (Z.to_nat (2 * k))
       (AtlasFill.vertex_coords (nth (Z.to_nat ch) chars dflt)) 0,
   nth (Z.to_nat (2 * k + 1))
       (AtlasFill.vertex_coords (nth (Z.to_nat ch) chars dflt)) 0).
Proof.
  intros Hch Hk. unfold AtlasFill.fetch_vertex. f_equal.
  - replace (Z.to_nat (2 * (4 * ch + k)))
      with (8 * Z.to_nat ch + Z.to_nat (2 * k))%nat by lia.
    apply vertex_buffer_nth; lia.
  - replace (Z.to_nat (2 * (4 * ch + k) + 1))
      with (8 * Z.to_nat ch + Z.to_nat (2 * k + 1))%nat by lia.
    apply vertex_buffer_nth; lia.
Qed.

(** X21: What a draw call draws: for a character in 0..127, the six indices
    gl_fontRenderCharacter hands to glDrawElements select, from the vertex
    half of the buffer font_genTextureAtlas filled, two triangles that
    make up the rectangle of the glyph: from [off_x] to [off_x + w] across
    and from [off_y - h] to [off_y] up. *)
Theorem glyph_quad_draws_glyph_rectangle
    (chars : list Atlas.font_char_t) (dflt : Atlas.font_char_t) (ch : Z) :
  length chars = 128%nat ->
  0 <= ch < 128 ->
  let c := nth (Z.to_nat ch) chars dflt in
  let left := Atlas.off_x c in
  let right := Atlas.off_x c + Atlas.w c in
  let bottom := Atlas.off_y c - Atlas.h c in
  let top := Atlas.off_y c - Atlas.h c + Atlas.h c in
  map (AtlasFill.fetch_vertex (AtlasFill.vertex_buffer chars)) (glyph_quad ch)
  = [ (left, top); (right, top); (left, bottom);
      (right, top); (left, bottom); (right, bottom) ].
Proof.
  intros Hlen Hch c left right bottom top.
  assert (Hin : 0 <= ch < Z.of_nat (length chars)) by lia.
  unfold glyph_quad, GLushort. cbn [map].
  rewrite !Z.mod_small by lia.
  rewrite !(fetch_vertex_of_glyph chars dflt ch) by lia.
  reflexivity.
Qed.

Lemma glyph_quad_draws_glyph_rectangle_witness :
  length glyphs_5x9 = 128%nat /\
  0 <= 97 < 128 /\
  let c := nth (Z.to_nat 97) glyphs_5x9 (Atlas.mk_char 0 0 0 0 0 0) in
  let left := Atlas.off_x c in
  let right := Atlas.off_x c + Atlas.w c in
  let bottom := Atlas.off_y c - Atlas.h c in
  let top := Atlas.off_y c - Atlas.h c + Atlas.h c in
  map (AtlasFill.fetch_vertex (AtlasFill.vertex_buffer glyphs_5x9))
      (glyph_quad 97)
  = [ (left, top); (right, top); (left, bottom);
      (right, top); (left, bottom); (right, bottom) ].
Proof.
  split; [reflexivity|]. split; [lia|].
  apply (glyph_quad_draws_glyph_rectangle glyphs_5x9
           (Atlas.mk_char 0 0 0 0 0 0) 97); [reflexivity | lia].
Defined.

(** ** gl_freeFont *)

(** X22: gl_freeFont can be called again: the first call leaves [chars] and
    [vbo] NULL, so the second frees neither of them a second time and
    leaves the font as it is.  The texture name is not cleared: the second
    call passes it to glDeleteTextures once more. *)
Theorem gl_freeFont_twice (font : glFontRes) :
  let '(font1, calls1) := gl_freeFont font in
  let '(font2, calls2) := gl_freeFont font1 in
  res_chars font1 = None /\
  res_vbo font1 = None /\
  font2 = font1 /\
  calls2 = [glDeleteTextures (res_texture font)] /\
  (forall ptr, res_chars font = Some ptr ->
     In (free ptr) calls1 /\ ~ In (free ptr) calls2) /\
  (forall ptr, res_vbo font = Some ptr ->
     In (gl_vboDestroy ptr) calls1 /\ ~ In (gl_vboDestroy ptr) calls2).
Proof.
  destruct font as [tex ch vb]. cbn [gl_freeFont res_texture res_chars res_vbo].
  split; [reflexivity|]. split; [reflexivity|]. split; [reflexivity|].
  split; [reflexivity|]. split.
  - intros ptr ->. split.
    + right. left. reflexivity.
    + intros [Hin|[]]. discriminate.
  - intros ptr ->. split.
    + apply in_or_app. right. apply in_or_app. right. left. reflexivity.
    + intros [Hin|[]]. discriminate.
Qed.
